(** * Count-min sketch with a top-k heap: a shallow embedding

    The program is the [Sketch] class of [count-min-101/CountMinSketch.ipynb]:
    a d x w grid of 32-bit counters addressed by d hash functions
    [x -> (a * x + b) % BIG_PRIME % w], together with a heap and a dictionary
    that track the k keys with the largest estimates.

    Python objects that are shared and mutated (the two-element lists
    [[estimate, key]] held by the heap and by the dictionary) live in an
    explicit store and are referred to by address, so that writing through
    one reference is seen, or not seen, through the other exactly as in the
    program. *)

From Stdlib Require Import ZArith QArith Qround Lia String Ascii DecimalString.
From stdpp Require Import base numbers list gmap strings fin_maps sorting.

Local Open Scope Z_scope.

(** ** Exceptions *)

Inductive exn : Set :=
| ValueError
| IndexError
| KeyError
| ZeroDivisionError.

Inductive result (A : Type) : Type :=
| Ok (a : A)
| Raise (e : exn).
Arguments Ok {A} a.
Arguments Raise {A} e.

#[global] Instance result_ret : MRet result := fun A a => Ok a.
#[global] Instance result_bind : MBind result := fun A B f m =>
  match m with
  | Ok a => f a
  | Raise e => Raise e
  end.

(** ** The library module [heapq]

    A heap is a Python list used as an implicit binary tree.  The functions
    follow [Lib/heapq.py]; the loops are bounded by a fuel that is never
    exhausted (see [siftdown_loop_fuel] and [siftup_loop_fuel]). *)

Section heapq.
Context {A : Type} (lt : A → A → bool).

(** [heap[i] < heap[j]] *)
Definition lt_at (heap : list A) (i j : nat) : bool :=
  match heap !! i, heap !! j with
  | Some x, Some y => lt x y
  | _, _ => false
  end.

(** The [while pos > startpos] loop of [_siftdown]. *)
Fixpoint siftdown_loop (fuel : nat) (heap : list A) (startpos pos : nat)
    (newitem : A) : list A :=
  match fuel with
  | O => <[pos := newitem]> heap
  | S fuel' =>
      if decide (startpos < pos)%nat then
        let parentpos := Nat.div2 (pos - 1) in
        match heap !! parentpos with
        | Some parent =>
            if lt newitem parent
            then siftdown_loop fuel' (<[pos := parent]> heap) startpos parentpos newitem
            else <[pos := newitem]> heap
        | None => <[pos := newitem]> heap
        end
      else <[pos := newitem]> heap
  end.

Definition _siftdown (heap : list A) (startpos pos : nat) : list A :=
  match heap !! pos with
  | Some newitem => siftdown_loop pos heap startpos pos newitem
  | None => heap
  end.

(** The [while childpos < endpos] loop of [_siftup]: the smaller child is
    moved up until a leaf is reached; the loop returns the heap and the
    final [pos]. *)
Fixpoint siftup_loop (fuel : nat) (heap : list A) (pos : nat) : list A * nat :=
  match fuel with
  | O => (heap, pos)
  | S fuel' =>
      let endpos := length heap in
      let childpos := (2 * pos + 1)%nat in
      if decide (childpos < endpos)%nat then
        let rightpos := (childpos + 1)%nat in
        let childpos :=
          if bool_decide (rightpos < endpos)%nat && negb (lt_at heap childpos rightpos)
          then rightpos else childpos in
        match heap !! childpos with
        | Some child => siftup_loop fuel' (<[pos := child]> heap) childpos
        | None => (heap, pos)
        end
      else (heap, pos)
  end.

Definition _siftup (heap : list A) (pos : nat) : list A :=
  match heap !! pos with
  | Some newitem =>
      let '(heap1, pos1) := siftup_loop (length heap) heap pos in
      _siftdown (<[pos1 := newitem]> heap1) pos pos1
  | None => heap
  end.

(** [heap.append(item); _siftdown(heap, 0, len(heap)-1)] *)
Definition heappush (heap : list A) (item : A) : list A :=
  let heap := heap ++ [item] in
  _siftdown heap 0 (length heap - 1).

(** Returns the popped item and the heap. *)
Definition heappushpop (heap : list A) (item : A) : A * list A :=
  match heap with
  | top :: rest =>
      if lt top item
      then (top, _siftup (item :: rest) 0)
      else (item, heap)
  | [] => (item, heap)
  end.

(** [for i in reversed(range(n//2)): _siftup(x, i)] *)
Definition heapify (x : list A) : list A :=
  foldl _siftup x (rev (seq 0 (length x / 2))).

End heapq.

(** ** Machine integers and constants *)

Definition BIG_PRIME : Z := 9223372036854775783.

(** [sys.maxsize] *)
Definition maxsize : Z := 9223372036854775807.

Definition INT32_MAX : Z := 2147483647.
Definition INT32_MIN : Z := -2147483648.

(** What is stored when [x] is written into an array of [dtype='int32']:
    the value is reduced to the signed 32-bit range. *)
Definition int32 (x : Z) : Z := (x + 2 ^ 31) mod 2 ^ 32 - 2 ^ 31.

Definition is_int32 (x : Z) : Prop := INT32_MIN ≤ x ≤ INT32_MAX.

(** ** Hash functions *)

(** The closure returned by [__generate_hash_function]: it captures the two
    random parameters. *)
Record hash_function : Set := { hash_a : Z; hash_b : Z }.

(** [lambda x: (a * x + b) % BIG_PRIME % self.w] *)
Definition call_hash (self_w : Z) (f : hash_function) (x : Z) : result Z :=
  if decide (self_w = 0) then Raise ZeroDivisionError
  else Ok (((hash_a f * x + hash_b f) mod BIG_PRIME) mod self_w).

(** [a, b = random_parameter(), random_parameter()]: the [i]-th closure built
    by the list comprehension of [__init__] takes the draws number [2i] and
    [2i+1] of the random source. *)
Definition __generate_hash_function (draws : nat → Z) (i : nat) : hash_function :=
  {| hash_a := draws (2 * i)%nat; hash_b := draws (2 * i + 1)%nat |}.

(** ** The counter grid, a numpy array of shape (d, w) *)

(** An index [i] into an axis of length [n]; negative indices count from the
    end. *)
Definition axis_index (n : nat) (i : Z) : result nat :=
  let j := if decide (i < 0) then i + Z.of_nat n else i in
  if decide (0 ≤ j < Z.of_nat n) then Ok (Z.to_nat j) else Raise IndexError.

(** [count[row, column]] *)
Definition getitem (count : list (list Z)) (row : nat) (column : Z) : result Z :=
  match count !! row with
  | Some cells =>
      j ← axis_index (length cells) column;
      match cells !! j with
      | Some v => Ok v
      | None => Raise IndexError
      end
  | None => Raise IndexError
  end.

(** [count[row, column] = v] *)
Definition setitem (count : list (list Z)) (row : nat) (column : Z) (v : Z)
    : result (list (list Z)) :=
  match count !! row with
  | Some cells =>
      j ← axis_index (length cells) column;
      Ok (<[row := <[j := int32 v]> cells]> count)
  | None => Raise IndexError
  end.

(** Total reading of a cell, for specifications. *)
Definition cell (count : list (list Z)) (row col : nat) : Z :=
  default 0 (count !! row ≫= (.!! col)).

(** ** The [[estimate, key]] lists *)

Definition entry : Type := Z * string.

(** Python's [<] on two lists [[estimate, key]]: the first differing
    component decides. *)
Definition entry_lt (x y : entry) : bool :=
  if decide (x.1 = y.1)
  then (if decide (x.2 = y.2) then false else String.ltb x.2 y.2)
  else bool_decide (x.1 < y.1).

Definition entry_le (x y : entry) : Prop := entry_lt y x = false.

#[global] Instance entry_le_dec : RelDecision entry_le :=
  λ x y, decide (entry_lt y x = false).

(** The object at address [p]. *)
Definition deref (store : list entry) (p : nat) : entry :=
  default (0, EmptyString) (store !! p).

(** [heap] entries are addresses; they are compared through the store. *)
Definition addr_lt (store : list entry) (p q : nat) : bool :=
  entry_lt (deref store p) (deref store q).

(** ** The sketch *)

Record Sketch : Type := {
  w : Z;
  d : Z;
  k : Z;
  hash_functions : list hash_function;
  count : list (list Z);
  (** every list object [[estimate, key]] allocated so far, by address *)
  store : list entry;
  heap : list nat;
  top_k : gmap string nat
}.

Definition with_count (self : Sketch) (c : list (list Z)) : Sketch :=
  {| w := w self; d := d self; k := k self;
     hash_functions := hash_functions self; count := c;
     store := store self; heap := heap self; top_k := top_k self |}.

Definition with_top (self : Sketch) (st : list entry) (h : list nat)
    (t : gmap string nat) : Sketch :=
  {| w := w self; d := d self; k := k self;
     hash_functions := hash_functions self; count := count self;
     store := st; heap := h; top_k := t |}.

(** The state built by the last three assignments of [__init__]. *)
Definition fresh (w d k : Z) (hfs : list hash_function) : Sketch :=
  {| w := w; d := d; k := k; hash_functions := hfs;
     count := replicate (Z.to_nat d) (replicate (Z.to_nat w) 0);
     store := []; heap := []; top_k := ∅ |}.

Section construction.
(** The floating-point library calls of [__init__], as functions of the
    parameter: [int(np.ceil(np.exp(1) / epsilon))] and
    [int(np.ceil(np.log(1 / delta)))]. *)
Variable ceil_exp1_over : Q → Z.
Variable ceil_log_inv : Q → Z.
(** The successive results of [random_parameter()]. *)
Variable draws : nat → Z.

(** [Sketch.__init__], with delta and epsilon as exact rationals;
    [np.zeros] rejects a negative dimension.  The [print] of the dimensions
    is left out. *)
Definition __init__ (delta epsilon : Q) (k : Z) : result Sketch :=
  if Qle_bool delta 0 || Qle_bool 1 delta then Raise ValueError
  else if Qle_bool epsilon 0 || Qle_bool 1 epsilon then Raise ValueError
  else if decide (k < 1) then Raise ValueError
  else
    let w := ceil_exp1_over epsilon in
    let d := ceil_log_inv delta in
    let hfs := __generate_hash_function draws <$> seq 0 (Z.to_nat d) in
    if decide (d < 0 ∨ w < 0) then Raise ValueError
    else Ok (fresh w d k hfs).
End construction.

Section methods.
(** Python's builtin [hash] on keys. *)
Variable hash : string → Z.

(** The loop of [update]:
    [for row, hash_function in enumerate(self.hash_functions)].  The
    statement [self.count[row, column] += increment] reads the cell, adds,
    and stores the sum back as a 32-bit value.  Increments are meant in the
    32-bit range: beyond it numpy 2 rejects the addition, while older
    versions store the wrapped sum as here. *)
Fixpoint update_rows (self_w : Z) (hfs : list hash_function) (row : nat)
    (key : string) (increment : Z) (count : list (list Z))
    : result (list (list Z)) :=
  match hfs with
  | [] => Ok count
  | hash_function :: hfs =>
      column ← call_hash self_w hash_function (Z.abs (hash key));
      c ← getitem count row column;
      count ← setitem count row column (c + increment);
      update_rows self_w hfs (S row) key increment count
  end.

(** The loop of [get]; [value] starts at [sys.maxsize]. *)
Fixpoint get_rows (self_w : Z) (hfs : list hash_function) (row : nat)
    (key : string) (count : list (list Z)) (value : Z) : result Z :=
  match hfs with
  | [] => Ok value
  | hash_function :: hfs =>
      column ← call_hash self_w hash_function (Z.abs (hash key));
      c ← getitem count row column;
      get_rows self_w hfs (S row) key count (Z.min c value)
  end.

Definition get (self : Sketch) (key : string) : result Z :=
  get_rows (w self) (hash_functions self) 0 key (count self) maxsize.

(** [not self.heap or estimate >= self.heap[0][0]] *)
Definition admits (self : Sketch) (estimate : Z) : bool :=
  match heap self with
  | [] => true
  | top :: _ => bool_decide ((deref (store self) top).1 ≤ estimate)
  end.

Definition update_heap (self : Sketch) (key : string) : result Sketch :=
  estimate ← get self key;
  if admits self estimate then
    match top_k self !! key with
    | Some old_pair =>
        (* old_pair[0] = estimate; heapq.heapify(self.heap) *)
        let st := <[old_pair := (estimate, (deref (store self) old_pair).2)]> (store self) in
        Ok (with_top self st (heapify (addr_lt st) (heap self)) (top_k self))
    | None =>
        if decide (Z.of_nat (size (top_k self)) < k self) then
          (* two list objects are built, one for the heap, one for top_k *)
          let pushed := length (store self) in
          let st := store self ++ [(estimate, key)] in
          let h := heappush (addr_lt st) (heap self) pushed in
          let kept := length st in
          let st := st ++ [(estimate, key)] in
          Ok (with_top self st h (<[key := kept]> (top_k self)))
        else
          (* one list object, new_pair, for the heap and for top_k *)
          let new_pair := length (store self) in
          let st := store self ++ [(estimate, key)] in
          let '(old_pair, h) := heappushpop (addr_lt st) (heap self) new_pair in
          let old_key := (deref st old_pair).2 in
          t ← (if decide ((deref st new_pair).2 ≠ old_key) then
                 match top_k self !! old_key with
                 | Some _ => Ok (<[key := new_pair]> (delete old_key (top_k self)))
                 | None => Raise KeyError
                 end
               else Ok (top_k self));
          (* the assignment after the [if]: self.top_k[key] = new_pair *)
          Ok (with_top self st h (<[key := new_pair]> t))
    end
  else Ok self.

Definition update (self : Sketch) (key : string) (increment : Z)
    : result Sketch :=
  count ← update_rows (w self) (hash_functions self) 0 key increment (count self);
  update_heap (with_count self count) key.

(** One stream event. *)
Definition observe (self : Sketch) (key : string) : result Sketch :=
  update self key 1.

Fixpoint update_all (self : Sketch) (calls : list (string * Z))
    : result Sketch :=
  match calls with
  | [] => Ok self
  | (key, increment) :: calls =>
      self ← update self key increment;
      update_all self calls
  end.

Definition observe_all (self : Sketch) (keys : list string) : result Sketch :=
  update_all self ((λ key, (key, 1)) <$> keys).

End methods.

(** [reversed(sorted(s.top_k.values()))], the ordering loop of
    [CM_top_users] without its [top_n] cut-off; each [[estimate, key]] is
    shown as [(key, estimate)]. *)
Definition snapshot (self : Sketch) : list (string * Z) :=
  (λ e : entry, (e.2, e.1)) <$>
    reverse (merge_sort entry_le (deref (store self) <$> (map_to_list (top_k self)).*2)).

(** ** Specification vocabulary *)

Section vocabulary.
Variable hash : string → Z.

(** The column that hash function [f] gives to [key], as a position in a
    row of the grid. *)
Definition column_of (self_w : Z) (f : hash_function) (key : string) : nat :=
  Z.to_nat (((hash_a f * Z.abs (hash key) + hash_b f) mod BIG_PRIME) mod self_w).

(** The sum, over unbounded integers, of the increments that [f] sends to
    column [c]. *)
Fixpoint exact_cell (self_w : Z) (f : hash_function)
    (calls : list (string * Z)) (c : nat) : Z :=
  match calls with
  | [] => 0
  | (key, increment) :: calls =>
      (if decide (column_of self_w f key = c) then increment else 0)
      + exact_cell self_w f calls c
  end.
End vocabulary.

(** The true cumulative count of [key]. *)
Fixpoint true_count (calls : list (string * Z)) (key : string) : Z :=
  match calls with
  | [] => 0
  | (key', increment) :: calls =>
      (if decide (key' = key) then increment else 0) + true_count calls key
  end.

Fixpoint total_increment (calls : list (string * Z)) : Z :=
  match calls with
  | [] => 0
  | (_, increment) :: calls => increment + total_increment calls
  end.

(** The hash function, if any, that [update_rows] started at [row] applies
    to row [r]. *)
Definition row_hash (hfs : list hash_function) (row r : nat) : option hash_function :=
  if decide (row ≤ r)%nat then hfs !! (r - row)%nat else None.

(** Every row of the grid has [self_w] cells. *)
Definition shaped (self_w : Z) (count : list (list Z)) : Prop :=
  Forall (λ cells, length cells = Z.to_nat self_w) count.

(** The key held by the list object at address [p]. *)
Definition key_at (store : list entry) (p : nat) : string := (deref store p).2.

(** The invariant of sketch states: the grid is a d x w array of 32-bit
    values with w >= 1 and one hash function per row; the heap refers to
    allocated objects with pairwise different keys, all of them keys of
    [top_k]. *)
Record wf (self : Sketch) : Prop := {
  wf_width : 1 ≤ w self;
  wf_rows : length (count self) = length (hash_functions self);
  wf_cols : shaped (w self) (count self);
  wf_int32 : Forall (Forall is_int32) (count self);
  wf_heap_alloc : Forall (λ p, (p < length (store self))%nat) (heap self);
  wf_heap_keys : NoDup (key_at (store self) <$> heap self);
  wf_heap_top : Forall (λ p, is_Some (top_k self !! key_at (store self) p)) (heap self)
}.

(** ** Concrete instances, for examples *)

(** A stand-in for the builtin [hash]: a polynomial hash of the bytes. *)
Definition sample_hash (key : string) : Z :=
  foldl (λ acc c, 31 * acc + Z.of_nat (nat_of_ascii c)) 0 (list_ascii_of_string key).

(** The double nearest to e, [np.exp(1)]. *)
Definition exp1 : Q := 6121026514868073 # 2251799813685248.

(** Stand-ins for the two floating-point expressions of [__init__], in exact
    rational arithmetic: the ceiling of [exp1 / epsilon], and the least [n]
    with [exp1 ^ n >= 1 / delta]. *)
Definition sample_width (epsilon : Q) : Z := Qceiling (exp1 / epsilon).

Fixpoint least_power (fuel : nat) (power target : Q) (n : Z) : Z :=
  match fuel with
  | O => n
  | S fuel =>
      if Qle_bool target power then n
      else least_power fuel (Qred (power * exp1)) target (n + 1)
  end.

Definition sample_depth (delta : Q) : Z := least_power 64 1 (/ delta) 0.

Definition sample_draws (i : nat) : Z := 2 * Z.of_nat i + 1.

(** ** The two listing functions of the notebook *)

(** [user.rstrip('\n')]: the line without its trailing newline characters. *)
Fixpoint rstrip_newline (line : string) : string :=
  match line with
  | EmptyString => EmptyString
  | String c rest =>
      match rstrip_newline rest with
      | EmptyString => if decide (c = "010"%char) then EmptyString else String c EmptyString
      | rest' => String c rest'
      end
  end.

(** [str(n)] for an integer. *)
Definition str (n : Z) : string := NilZero.string_of_int (Z.to_int n).

(** The body of the counting loop of [exact_top_users]:
    [counts[user] = 1] for a new user, [counts[user] += 1] otherwise.  A
    dict lists its keys in the order of their first insertion. *)
Fixpoint count_user (counts : list (string * Z)) (user : string) : list (string * Z) :=
  match counts with
  | [] => [(user, 1)]
  | (u, c) :: counts =>
      if decide (u = user) then (u, c + 1) :: counts
      else (u, c) :: count_user counts user
  end.

(** [counts] after the loop [for user in f]. *)
Definition exact_counts (f : list string) : list (string * Z) :=
  foldl (λ counts user, count_user counts (rstrip_newline user)) [] f.

(** [sorted(counts.items(), key=operator.itemgetter(1))]: ascending counts,
    items with equal counts in their original order. *)
Fixpoint insert_by_count (item : string * Z) (sorted : list (string * Z))
    : list (string * Z) :=
  match sorted with
  | [] => [item]
  | item' :: sorted' =>
      if decide (item.2 ≤ item'.2)%Z then item :: sorted
      else item' :: insert_by_count item sorted'
  end.

Definition sorted_by_count (items : list (string * Z)) : list (string * Z) :=
  foldr insert_by_count [] items.

(** The loop that builds [results] in both listing functions: it stops
    once [counter >= top_n]. *)
Fixpoint listing_loop {A} (format : A → string) (items : list A) (top_n counter : Z)
    (results : list string) : list string :=
  match items with
  | [] => results
  | item :: items =>
      if decide (counter >= top_n)%Z then results
      else listing_loop format items top_n (counter + 1) (results ++ [format item])
  end.

(** ['{},{}'.format(user, str(count))] *)
Definition format_user (item : string * Z) : string :=
  item.1 +:+ ","%string +:+ str item.2.

(** [exact_top_users(f, top_n)]; the [print] of the number of counters is
    left out, and the two [except] clauses catch nothing the loop raises. *)
Definition exact_top_users (f : list string) (top_n : Z) : list string :=
  listing_loop format_user (reverse (sorted_by_count (exact_counts f))) top_n 0 [].

(** ['{1},{0}'.format(str(value[0]), str(value[1]))] for a pair
    [[estimate, key]] *)
Definition format_value (value : entry) : string :=
  value.2 +:+ ","%string +:+ str value.1.

(** [CM_top_users(f, s, top_n)]: the lines, and the sketch as the calls
    leave it. *)
Definition CM_top_users (hash : string → Z) (f : list string) (s : Sketch) (top_n : Z)
    : result (list string * Sketch) :=
  s ← observe_all hash s (rstrip_newline <$> f);
  Ok (listing_loop format_value
        (reverse (merge_sort entry_le (deref (store s) <$> (map_to_list (top_k s)).*2)))
        top_n 0 [], s).

(** The number of lines of [f] that name [user]. *)
Fixpoint occurrences (users : list string) (user : string) : Z :=
  match users with
  | [] => 0
  | u :: users => (if decide (u = user) then 1 else 0) + occurrences users user
  end.

(** ** More of what the states keep *)

(** The dictionary sends each key to an allocated pair that carries this
    key, and the heap has at most k entries. *)
Record cand_ok (self : Sketch) : Prop := {
  cand_pairs : ∀ key p, top_k self !! key = Some p →
    ∃ estimate, store self !! p = Some (estimate, key);
  cand_heap_size : Z.of_nat (length (heap self)) ≤ k self
}.

(** The ways [update_heap] can go for [key] with the estimate [estimate],
    from [self] to [self']. *)
Inductive heap_step (self : Sketch) (key : string) (estimate : Z) (self' : Sketch) : Prop :=
| step_refused :
    admits self estimate = false →
    self' = self →
    heap_step self key estimate self'
| step_refreshed p :
    admits self estimate = true →
    top_k self !! key = Some p →
    store self' = <[p := (estimate, key_at (store self) p)]> (store self) →
    heap self' = heapify (addr_lt (store self')) (heap self) →
    top_k self' = top_k self →
    heap_step self key estimate self'
| step_pushed :
    admits self estimate = true →
    top_k self !! key = None →
    Z.of_nat (size (top_k self)) < k self →
    store self' = (store self ++ [(estimate, key)]) ++ [(estimate, key)] →
    heap self' = heappush (addr_lt (store self ++ [(estimate, key)])) (heap self)
                   (length (store self)) →
    top_k self' = <[key := S (length (store self))]> (top_k self) →
    heap_step self key estimate self'
| step_bounced :
    admits self estimate = true →
    top_k self !! key = None →
    ¬ Z.of_nat (size (top_k self)) < k self →
    (heap self = [] ∨ ∃ root rest, heap self = root :: rest
       ∧ addr_lt (store self') root (length (store self)) = false) →
    store self' = store self ++ [(estimate, key)] →
    heap self' = heap self →
    top_k self' = <[key := length (store self)]> (top_k self) →
    heap_step self key estimate self'
| step_evicted root rest :
    admits self estimate = true →
    top_k self !! key = None →
    ¬ Z.of_nat (size (top_k self)) < k self →
    heap self = root :: rest →
    addr_lt (store self') root (length (store self)) = true →
    is_Some (top_k self !! key_at (store self) root) →
    key_at (store self) root ≠ key →
    store self' = store self ++ [(estimate, key)] →
    heap self' = _siftup (addr_lt (store self')) (length (store self) :: rest) 0 →
    top_k self' = <[key := length (store self)]> (delete (key_at (store self) root) (top_k self)) →
    heap_step self key estimate self'.

(** ** Vocabulary for the listing functions *)

(** What the counting loop keeps: one item per user seen so far, with the
    number of lines seen for this user. *)
Definition counted (counts : list (string * Z)) (users : list string) : Prop :=
  NoDup counts.*1
  ∧ ∀ user c, (user, c) ∈ counts ↔ user ∈ users ∧ c = occurrences users user.

(** The items behind the lines of [exact_top_users]. *)
Definition exact_top (f : list string) (top_n : Z) : list (string * Z) :=
  take (Z.to_nat top_n) (reverse (sorted_by_count (exact_counts f))).

(** The pairs behind the lines of [CM_top_users], for a sketch [s]. *)
Definition CM_top (s : Sketch) (top_n : Z) : list entry :=
  take (Z.to_nat top_n)
    (reverse (merge_sort entry_le (deref (store s) <$> (map_to_list (top_k s)).*2))).

(** ** Heap order *)

(** The parent of position [i > 0] in the implicit binary tree. *)
Definition parent (i : nat) : nat := Nat.div2 (i - 1).

(** No entry whose parent sits at position [lo] or later is smaller than
    its parent. *)
Definition ordered_from {A} (lt : A → A → bool) (lo : nat) (heap : list A) : Prop :=
  ∀ i x y, (0 < i)%nat → (lo ≤ parent i)%nat →
    heap !! i = Some x → heap !! parent i = Some y → lt x y = false.

(** The heap invariant of [heapq]: [heap[k] <= heap[2*k+1]] and
    [heap[k] <= heap[2*k+2]] for all k. *)
Definition heap_ordered {A} (lt : A → A → bool) (heap : list A) : Prop :=
  ordered_from lt 0 heap.

(** Position [pos] lies in the subtree rooted at [lo]. *)
Inductive under (lo : nat) : nat → Prop :=
| under_root : under lo lo
| under_child i : (0 < i)%nat → under lo (parent i) → under lo i.

(** * Proofs *)

(** ** [heapq] rearranges, and neither loses nor duplicates entries *)

Section heapq_facts.
Context {A : Type} (lt : A → A → bool).
Implicit Types (heap : list A) (pos : nat).

Lemma insert_cons_delete heap pos (x : A) :
  (pos < length heap)%nat → <[pos := x]> heap ≡ₚ x :: delete pos heap.
Proof.
  revert pos. induction heap as [|y heap IH]; intros [|pos] Hlen; simpl in *; try lia.
  - done.
  - rewrite (IH pos) by lia. apply Permutation_swap.
Qed.

Lemma lookup_cons_delete heap pos (x : A) :
  heap !! pos = Some x → heap ≡ₚ x :: delete pos heap.
Proof. apply delete_Permutation. Qed.

(** Moving the element at [i] into slot [j] and filling slot [i] with [y]
    is the same, up to order, as writing [y] into slot [j]. *)
Lemma insert_move heap (i j : nat) (x y : A) :
  i ≠ j → heap !! i = Some x → (j < length heap)%nat →
  <[i := y]> (<[j := x]> heap) ≡ₚ <[j := y]> heap.
Proof.
  revert i j. induction heap as [|z heap IH]; intros [|i] [|j] Hne Hi Hj;
    simpl in *; try done; try lia.
  - injection Hi as ->.
    rewrite !insert_cons_delete by lia. apply Permutation_swap.
  - rewrite (insert_cons_delete heap i y) by (by eapply lookup_lt_Some).
    rewrite (lookup_cons_delete heap i x Hi) at 2.
    apply Permutation_swap.
  - f_equiv. apply IH; [congruence | done | lia].
Qed.

Lemma div2_pred_lt pos : (0 < pos)%nat → (Nat.div2 (pos - 1) < pos)%nat.
Proof.
  intros Hpos. pose proof (Nat.div2_decr (pos - 1) (pos - 1)). lia.
Qed.

Lemma siftdown_loop_perm fuel heap startpos pos x :
  (pos < length heap)%nat →
  siftdown_loop lt fuel heap startpos pos x ≡ₚ <[pos := x]> heap.
Proof.
  revert heap pos. induction fuel as [|fuel IH]; intros heap pos Hpos; simpl; [done|].
  destruct (decide _) as [Hlt|]; [|done].
  destruct (heap !! Nat.div2 (pos - 1)) as [parent|] eqn:Hparent; [|done].
  destruct (lt x parent); [|done].
  pose proof (div2_pred_lt pos ltac:(lia)) as Hdiv.
  rewrite IH by (rewrite length_insert; lia).
  apply insert_move; [lia | done | done].
Qed.

Lemma siftdown_perm heap startpos pos : _siftdown lt heap startpos pos ≡ₚ heap.
Proof.
  unfold _siftdown. destruct (heap !! pos) as [x|] eqn:Hx; [|done].
  rewrite siftdown_loop_perm by (by eapply lookup_lt_Some).
  by rewrite list_insert_id.
Qed.

(** The fuel given by [_siftdown] is enough: more fuel changes nothing. *)
Lemma siftdown_loop_fuel fuel fuel' heap startpos pos x :
  (pos ≤ fuel)%nat → (pos ≤ fuel')%nat →
  siftdown_loop lt fuel heap startpos pos x = siftdown_loop lt fuel' heap startpos pos x.
Proof.
  revert fuel' heap pos. induction fuel as [|fuel IH]; intros [|fuel'] heap pos H1 H2; simpl.
  - done.
  - assert (pos = 0)%nat as -> by lia. by rewrite decide_False by lia.
  - assert (pos = 0)%nat as -> by lia. by rewrite decide_False by lia.
  - destruct (decide _) as [Hlt|]; [|done].
    destruct (heap !! Nat.div2 (pos - 1)) as [parent|]; [|done].
    destruct (lt x parent); [|done].
    pose proof (div2_pred_lt pos ltac:(lia)).
    apply IH; lia.
Qed.

Lemma siftup_loop_spec fuel heap pos heap1 pos1 (x : A) :
  (pos < length heap)%nat →
  siftup_loop lt fuel heap pos = (heap1, pos1) →
  (pos ≤ pos1 < length heap1)%nat ∧ <[pos1 := x]> heap1 ≡ₚ <[pos := x]> heap.
Proof.
  revert heap pos. induction fuel as [|fuel IH]; intros heap pos Hpos; simpl.
  { intros [= <- <-]. split; [lia | done]. }
  destruct (decide _) as [Hchild|]; [|intros [= <- <-]; split; [lia | done]].
  assert (∀ c, (pos < c < length heap)%nat →
    match heap !! c with
    | Some child => siftup_loop lt fuel (<[pos := child]> heap) c
    | None => (heap, pos)
    end = (heap1, pos1) →
    (pos ≤ pos1 < length heap1)%nat ∧ <[pos1 := x]> heap1 ≡ₚ <[pos := x]> heap) as Hgen.
  { intros c Hc. destruct (heap !! c) as [child|] eqn:Hlk;
      [|intros [= <- <-]; split; [lia | done]].
    intros Hrec. apply IH in Hrec as [Hb Hperm]; [|rewrite length_insert; lia].
    pose proof (Permutation_length Hperm) as Hlen.
    rewrite !length_insert in Hlen.
    split; [lia|]. rewrite Hperm.
    apply insert_move; [lia | done | lia]. }
  destruct (bool_decide _) eqn:Hb; simpl.
  - apply bool_decide_eq_true in Hb. destruct (negb _); apply Hgen; lia.
  - apply Hgen; lia.
Qed.

Lemma siftup_loop_fuel fuel fuel' heap pos :
  (length heap ≤ fuel + pos)%nat → (length heap ≤ fuel' + pos)%nat →
  siftup_loop lt fuel heap pos = siftup_loop lt fuel' heap pos.
Proof.
  revert fuel' heap pos. induction fuel as [|fuel IH]; intros [|fuel'] heap pos H1 H2; simpl.
  - done.
  - by rewrite decide_False by lia.
  - by rewrite decide_False by lia.
  - destruct (decide _) as [Hchild|]; [|done].
    assert (∀ c, (pos < c)%nat →
      match heap !! c with
      | Some child => siftup_loop lt fuel (<[pos := child]> heap) c
      | None => (heap, pos)
      end =
      match heap !! c with
      | Some child => siftup_loop lt fuel' (<[pos := child]> heap) c
      | None => (heap, pos)
      end) as Hgen.
    { intros c Hc. destruct (heap !! c) as [child|]; [|done].
      apply IH; rewrite length_insert; lia. }
    destruct (_ && _); apply Hgen; lia.
Qed.

Lemma siftup_perm heap pos : _siftup lt heap pos ≡ₚ heap.
Proof.
  unfold _siftup. destruct (heap !! pos) as [x|] eqn:Hx; [|done].
  destruct (siftup_loop lt (length heap) heap pos) as [heap1 pos1] eqn:Hloop.
  eapply (siftup_loop_spec _ _ _ _ _ x) in Hloop as [_ Hperm];
    [|by eapply lookup_lt_Some].
  rewrite siftdown_perm, Hperm. by rewrite list_insert_id.
Qed.

Lemma heapify_perm heap : heapify lt heap ≡ₚ heap.
Proof.
  unfold heapify. generalize (rev (seq 0 (length heap / 2))). intros idx.
  revert heap. induction idx as [|i idx IH]; intros heap; simpl; [done|].
  by rewrite IH, siftup_perm.
Qed.

Lemma heappush_perm heap item : heappush lt heap item ≡ₚ item :: heap.
Proof.
  unfold heappush. rewrite siftdown_perm. by rewrite Permutation_app_comm.
Qed.

Lemma heappushpop_spec heap item old heap' :
  heappushpop lt heap item = (old, heap') →
  (old = item ∧ heap' = heap) ∨
  (∃ rest, heap = old :: rest ∧ lt old item = true ∧ heap' ≡ₚ item :: rest).
Proof.
  unfold heappushpop. destruct heap as [|top rest]; [intros [= <- <-]; by left|].
  destruct (lt top item) eqn:Hlt; intros [= <- <-]; [right | by left].
  exists rest. split_and!; [done | done | apply siftup_perm].
Qed.
End heapq_facts.

(** ** 32-bit counters *)

Lemma int32_is_int32 x : is_int32 (int32 x).
Proof.
  unfold is_int32, int32, INT32_MIN, INT32_MAX.
  pose proof (Z.mod_pos_bound (x + 2 ^ 31) (2 ^ 32) ltac:(lia)). lia.
Qed.

Lemma int32_id x : is_int32 x → int32 x = x.
Proof.
  unfold is_int32, int32, INT32_MIN, INT32_MAX. intros Hx.
  rewrite Z.mod_small by lia. lia.
Qed.

Lemma int32_add_l x y : int32 (int32 x + y) = int32 (x + y).
Proof.
  unfold int32.
  replace ((x + 2 ^ 31) mod 2 ^ 32 - 2 ^ 31 + y + 2 ^ 31)
    with ((x + 2 ^ 31) mod 2 ^ 32 + y) by lia.
  rewrite Zplus_mod_idemp_l. f_equal. f_equal. lia.
Qed.

(** ** The counter grid *)

Lemma call_hash_column hash self_w f key :
  1 ≤ self_w →
  call_hash self_w f (Z.abs (hash key)) = Ok (Z.of_nat (column_of hash self_w f key))
  ∧ (column_of hash self_w f key < Z.to_nat self_w)%nat.
Proof.
  intros Hw. unfold call_hash, column_of.
  rewrite decide_False by lia.
  pose proof (Z.mod_pos_bound ((hash_a f * Z.abs (hash key) + hash_b f) mod BIG_PRIME)
                self_w ltac:(lia)).
  split; [f_equal; lia | lia].
Qed.

Lemma axis_index_in_range (n j : nat) :
  (j < n)%nat → axis_index n (Z.of_nat j) = Ok j.
Proof.
  intros Hj. unfold axis_index.
  destruct (decide (Z.of_nat j < 0)); [lia|].
  rewrite decide_True by lia. f_equal. lia.
Qed.

Lemma getitem_cell count row cells (j : nat) :
  count !! row = Some cells → (j < length cells)%nat →
  getitem count row (Z.of_nat j) = Ok (cell count row j).
Proof.
  intros Hrow Hj. unfold getitem, cell. rewrite Hrow. simpl.
  rewrite axis_index_in_range by done. simpl.
  destruct (lookup_lt_is_Some_2 cells j Hj) as [v Hv]. by rewrite Hv.
Qed.

Lemma setitem_cell count row cells (j : nat) v :
  count !! row = Some cells → (j < length cells)%nat →
  setitem count row (Z.of_nat j) v = Ok (<[row := <[j := int32 v]> cells]> count).
Proof.
  intros Hrow Hj. unfold setitem. rewrite Hrow. simpl.
  by rewrite axis_index_in_range by done.
Qed.

Lemma cell_insert count row cells (j : nat) v r c :
  count !! row = Some cells → (j < length cells)%nat →
  cell (<[row := <[j := v]> cells]> count) r c
  = if decide (r = row ∧ c = j) then v else cell count r c.
Proof.
  intros Hrow Hj. unfold cell.
  pose proof (lookup_lt_Some _ _ _ Hrow) as Hlt.
  destruct (decide (r = row)) as [->|Hr].
  - rewrite list_lookup_insert_eq by done. rewrite Hrow. simpl.
    destruct (decide (c = j)) as [->|Hc].
    + rewrite list_lookup_insert_eq by done. by rewrite decide_True.
    + rewrite list_lookup_insert_ne by done. rewrite decide_False by tauto. done.
  - rewrite list_lookup_insert_ne by done. by rewrite decide_False by tauto.
Qed.

Lemma cell_is_int32 count r c :
  Forall (Forall is_int32) count → is_int32 (cell count r c).
Proof.
  intros Hall. unfold cell.
  destruct (count !! r) as [cells|] eqn:Hr; simpl; [|unfold is_int32, INT32_MIN, INT32_MAX; lia].
  destruct (cells !! c) as [v|] eqn:Hc; simpl; [|unfold is_int32, INT32_MIN, INT32_MAX; lia].
  eapply Forall_lookup_1 in Hall; [|done]. by eapply Forall_lookup_1 in Hall.
Qed.

Section grid_facts.
Variable hash : string → Z.
Variable self_w : Z.
Hypothesis width : 1 ≤ self_w.

Lemma update_rows_spec hfs row key increment count :
  shaped self_w count → (row + length hfs ≤ length count)%nat →
  ∃ count',
    update_rows hash self_w hfs row key increment count = Ok count'
    ∧ length count' = length count
    ∧ shaped self_w count'
    ∧ (Forall (Forall is_int32) count → Forall (Forall is_int32) count')
    ∧ ∀ r c, cell count' r c =
        match row_hash hfs row r with
        | Some f =>
            if decide (c = column_of hash self_w f key)
            then int32 (cell count r c + increment) else cell count r c
        | None => cell count r c
        end.
Proof.
  revert row count. induction hfs as [|f hfs IH]; intros row count Hshape Hlen; simpl in *.
  - exists count. split_and!; try done.
    intros r c. unfold row_hash. case_decide; [|done]. by rewrite lookup_nil.
  - destruct (call_hash_column hash self_w f key width) as [-> Hcol]. simpl.
    destruct (lookup_lt_is_Some_2 count row ltac:(lia)) as [cells Hrow].
    assert (length cells = Z.to_nat self_w) as Hcells
      by (by eapply Forall_lookup_1 in Hshape).
    rewrite (getitem_cell _ _ cells) by (done || lia). simpl.
    rewrite (setitem_cell _ _ cells) by (done || lia). simpl.
    set (count1 := <[row := _]> count).
    destruct (IH (S row) count1) as (count' & -> & Hlen' & Hshape' & Hint & Hcell).
    { apply Forall_insert; [done|]. by rewrite length_insert. }
    { unfold count1. rewrite length_insert. lia. }
    exists count'. split_and!; try done.
    + rewrite Hlen'. unfold count1. by rewrite length_insert.
    + intros Hall. apply Hint. apply Forall_insert; [done|].
      apply Forall_insert; [by eapply Forall_lookup_1 in Hall | apply int32_is_int32].
    + intros r c. rewrite Hcell. unfold count1.
      rewrite !(cell_insert _ _ cells) by (done || lia).
      unfold row_hash.
      destruct (decide (r = row)) as [->|Hr].
      * rewrite (decide_False (P := (S row ≤ row)%nat)) by lia.
        rewrite (decide_True (P := (row ≤ row)%nat)) by lia.
        rewrite Nat.sub_diag. simpl.
        destruct (decide (c = _)) as [->|Hc].
        -- by rewrite decide_True.
        -- by rewrite decide_False by tauto.
      * rewrite (decide_False (P := r = row ∧ c = _)) by tauto.
        destruct (decide (S row ≤ r)%nat) as [Hle|Hle].
        -- rewrite (decide_True (P := (row ≤ r)%nat)) by lia.
           replace (r - row)%nat with (S (r - S row)) by lia. simpl.
           done.
        -- rewrite (decide_False (P := (row ≤ r)%nat)) by lia. done.
Qed.

Lemma get_rows_spec hfs row key count value :
  shaped self_w count → (row + length hfs ≤ length count)%nat →
  ∃ v,
    get_rows hash self_w hfs row key count value = Ok v
    ∧ v ≤ value
    ∧ (∀ i f, hfs !! i = Some f → v ≤ cell count (row + i) (column_of hash self_w f key))
    ∧ (∀ lo, lo ≤ value →
         (∀ i f, hfs !! i = Some f → lo ≤ cell count (row + i) (column_of hash self_w f key)) →
         lo ≤ v).
Proof.
  revert row value. induction hfs as [|f hfs IH]; intros row value Hshape Hlen; simpl in *.
  - exists value. split_and!; [done | lia | by intros i f' [=] | auto].
  - destruct (call_hash_column hash self_w f key width) as [-> Hcol]. simpl.
    destruct (lookup_lt_is_Some_2 count row ltac:(lia)) as [cells Hrow].
    assert (length cells = Z.to_nat self_w) as Hcells
      by (by eapply Forall_lookup_1 in Hshape).
    rewrite (getitem_cell _ _ cells) by (done || lia). simpl.
    destruct (IH (S row) (Z.min (cell count row (column_of hash self_w f key)) value))
      as (v & -> & Hv & Hup & Hlo); [done | lia |].
    exists v. split_and!; [done | lia | |].
    + intros [|i] f' Hi; simpl in Hi.
      * injection Hi as <-. rewrite Nat.add_0_r. lia.
      * replace (row + S i)%nat with (S row + i)%nat by lia. by apply Hup.
    + intros lo Hlo1 Hlo2. apply Hlo.
      * specialize (Hlo2 0%nat f eq_refl). rewrite Nat.add_0_r in Hlo2. lia.
      * intros i f' Hi. replace (S row + i)%nat with (row + S i)%nat by lia.
        by apply Hlo2.
Qed.
End grid_facts.

(** ** Addresses and keys *)

Lemma deref_app_l store extra p :
  (p < length store)%nat → deref (store ++ extra) p = deref store p.
Proof. intros Hp. unfold deref. by rewrite lookup_app_l. Qed.

Lemma deref_app_new store e extra :
  deref ((store ++ [e]) ++ extra) (length store) = e.
Proof.
  unfold deref. rewrite lookup_app_l by (rewrite length_app; simpl; lia).
  by rewrite list_lookup_middle.
Qed.

Lemma deref_snoc store e : deref (store ++ [e]) (length store) = e.
Proof. unfold deref. by rewrite list_lookup_middle. Qed.

Lemma key_at_app_l store extra p :
  (p < length store)%nat → key_at (store ++ extra) p = key_at store p.
Proof. intros Hp. unfold key_at. by rewrite deref_app_l. Qed.

(** [old_pair[0] = estimate] leaves every key where it is. *)
Lemma key_at_set_estimate store q estimate p :
  key_at (<[q := (estimate, (deref store q).2)]> store) p = key_at store p.
Proof.
  unfold key_at, deref. destruct (decide (p = q)) as [->|Hne].
  - destruct (decide (q < length store)%nat) as [Hq|Hq].
    + rewrite list_lookup_insert_eq by done. done.
    + assert (length store ≤ q)%nat as Hge by lia.
    rewrite list_insert_ge by exact Hge. done.
  - by rewrite list_lookup_insert_ne.
Qed.

Lemma keys_app_l store extra (heap : list nat) :
  Forall (λ p, (p < length store)%nat) heap →
  key_at (store ++ extra) <$> heap = key_at store <$> heap.
Proof.
  intros Hall. apply list_fmap_ext. intros i p Hp.
  apply key_at_app_l. by eapply Forall_lookup_1 in Hall.
Qed.

Lemma heap_key_in_top store (heap : list nat) (top_k : gmap string nat) key :
  Forall (λ p, is_Some (top_k !! key_at store p)) heap →
  top_k !! key = None → key ∉ key_at store <$> heap.
Proof.
  intros Hall Hnone (p & -> & Hp)%list_elem_of_fmap.
  rewrite Forall_forall in Hall. apply Hall in Hp as [a Ha]. congruence.
Qed.

Section top_facts.
Variable hash : string → Z.

Lemma get_succeeds self key :
  wf self →
  ∃ v, get hash self key = Ok v
    ∧ v ≤ maxsize
    ∧ (∀ i f, hash_functions self !! i = Some f →
         v ≤ cell (count self) i (column_of hash (w self) f key))
    ∧ (∀ lo, lo ≤ maxsize →
         (∀ i f, hash_functions self !! i = Some f →
            lo ≤ cell (count self) i (column_of hash (w self) f key)) →
         lo ≤ v).
Proof.
  intros [Hw Hrows Hcols _ _ _ _]. unfold get.
  destruct (get_rows_spec hash (w self) Hw (hash_functions self) 0 key (count self) maxsize)
    as (v & Hv & Hle & Hup & Hlo); [done | simpl; lia |].
  exists v. split_and!; done.
Qed.

Lemma update_heap_wf self key :
  wf self →
  ∃ self', update_heap hash self key = Ok self'
    ∧ wf self'
    ∧ count self' = count self
    ∧ hash_functions self' = hash_functions self
    ∧ w self' = w self ∧ d self' = d self ∧ k self' = k self.
Proof.
  intros Hwf. destruct (get_succeeds self key Hwf) as (estimate & Hget & _).
  destruct Hwf as [Hw Hrows Hcols Hint Halloc Hkeys Htop].
  unfold update_heap. rewrite Hget. simpl.
  destruct (admits self estimate); [|by exists self].
  destruct (top_k self !! key) as [old_pair|] eqn:Hkey.
  - (* the key is a candidate *)
    eexists. split; [done|]. split; [|done].
    pose proof (heapify_perm
      (addr_lt (<[old_pair:=(estimate, (deref (store self) old_pair).2)]> (store self)))
      (heap self)) as Hperm.
    split; simpl; try done.
    + rewrite Hperm. by rewrite length_insert.
    + rewrite Hperm.
      erewrite list_fmap_ext; [exact Hkeys|]. intros i p _. apply key_at_set_estimate.
    + rewrite Hperm. eapply Forall_impl; [exact Htop|].
      intros p Hp. simpl in Hp. by rewrite key_at_set_estimate.
  - destruct (decide _) as [Hroom|Hfull].
    + (* room left: push *)
      eexists. split; [done|]. split; [|done].
      pose proof (heappush_perm (addr_lt (store self ++ [(estimate, key)]))
        (heap self) (length (store self))) as Hperm.
      split; simpl; try done.
      * rewrite Hperm. constructor; [rewrite !length_app; simpl; lia|].
        eapply Forall_impl; [exact Halloc|]. intros p Hp. simpl in *.
        rewrite !length_app. simpl. lia.
      * rewrite Hperm. rewrite fmap_cons.
        rewrite <- app_assoc. rewrite keys_app_l by done.
        unfold key_at at 1. rewrite app_assoc, deref_app_new. simpl.
        constructor; [|done]. by eapply heap_key_in_top.
      * rewrite Hperm. rewrite <- app_assoc. constructor.
        -- unfold key_at. rewrite app_assoc, deref_app_new. simpl.
           rewrite lookup_insert_eq. by eexists.
        -- rewrite Forall_forall in Htop, Halloc. apply Forall_forall. intros p Hp.
           rewrite key_at_app_l by (by apply Halloc).
           apply lookup_insert_is_Some'. right. by apply Htop.
    + (* full: pushpop *)
      destruct (heappushpop _ _ _) as [old_pair h] eqn:Hpp.
      apply heappushpop_spec in Hpp as [[-> ->]|(rest & Hheap & _ & Hperm)].
      * (* the new pair comes straight back *)
        rewrite deref_snoc. simpl. rewrite decide_False by (intros Hne; by apply Hne).
        simpl. eexists. split; [done|]. split; [|done].
        split; simpl; try done.
        -- eapply Forall_impl; [exact Halloc|]. intros p Hp. simpl in *.
           rewrite length_app. simpl. lia.
        -- by rewrite keys_app_l.
        -- rewrite Forall_forall in Htop, Halloc. apply Forall_forall. intros p Hp.
           rewrite key_at_app_l by (by apply Halloc).
           apply lookup_insert_is_Some'. right. by apply Htop.
      * (* the root is replaced *)
        rewrite Hheap in Halloc, Hkeys, Htop.
        apply Forall_cons in Halloc as [Hold Halloc].
        apply Forall_cons in Htop as [Holdtop Htop].
        rewrite fmap_cons in Hkeys. apply NoDup_cons in Hkeys as [Hfresh Hkeys].
        rewrite deref_snoc. simpl. rewrite deref_app_l by done.
        fold (key_at (store self) old_pair).
        assert (key ≠ key_at (store self) old_pair) as Hne.
        { intros ->. destruct Holdtop as [a Ha]. congruence. }
        rewrite decide_True by done.
        destruct Holdtop as [a ->]. simpl.
        eexists. split; [done|]. split; [|done].
        split; simpl; try done.
        -- rewrite Hperm. constructor; [rewrite length_app; simpl; lia|].
           eapply Forall_impl; [exact Halloc|]. intros p Hp. simpl in *.
           rewrite length_app. simpl. lia.
        -- rewrite Hperm, fmap_cons. rewrite keys_app_l by done.
           unfold key_at at 1. rewrite deref_snoc. simpl.
           constructor; [|done]. by eapply heap_key_in_top.
        -- rewrite Hperm. constructor.
           ++ unfold key_at. rewrite deref_snoc. simpl.
              rewrite lookup_insert_eq. by eexists.
           ++ rewrite Forall_forall in Htop, Halloc. apply Forall_forall. intros p Hp.
              rewrite key_at_app_l by (by apply Halloc).
              apply lookup_insert_is_Some'. right.
              apply lookup_insert_is_Some'. right.
              rewrite lookup_delete_ne; [by apply Htop|].
              intros Heq. apply Hfresh. rewrite Heq.
              apply list_elem_of_fmap. by exists p.
Qed.
End top_facts.

(** ** Every call keeps the invariant and raises nothing *)

Lemma row_hash_0 hfs r : row_hash hfs 0 r = hfs !! r.
Proof. unfold row_hash. rewrite decide_True by lia. by rewrite Nat.sub_0_r. Qed.

Lemma with_count_wf self c :
  wf self → shaped (w self) c → length c = length (hash_functions self) →
  Forall (Forall is_int32) c → wf (with_count self c).
Proof. intros [] ? ? ?. by split. Qed.

Section calls.
Variable hash : string → Z.

Lemma update_wf self key increment :
  wf self →
  ∃ self', update hash self key increment = Ok self'
    ∧ wf self'
    ∧ hash_functions self' = hash_functions self
    ∧ w self' = w self ∧ d self' = d self ∧ k self' = k self
    ∧ ∀ r c, cell (count self') r c =
        match hash_functions self !! r with
        | Some f =>
            if decide (c = column_of hash (w self) f key)
            then int32 (cell (count self) r c + increment)
            else cell (count self) r c
        | None => cell (count self) r c
        end.
Proof.
  intros Hwf. unfold update.
  destruct (update_rows_spec hash (w self) (wf_width _ Hwf) (hash_functions self) 0
              key increment (count self))
    as (count' & -> & Hlen & Hshape & Hint & Hcell).
  { apply Hwf. }
  { rewrite (wf_rows _ Hwf). simpl. lia. }
  simpl.
  destruct (update_heap_wf hash (with_count self count') key)
    as (self' & -> & Hwf' & Hcount & Hhfs & Hw & Hd & Hk).
  { apply with_count_wf; [done | done | by rewrite Hlen, (wf_rows _ Hwf) |].
    apply Hint, Hwf. }
  exists self'. split_and!; try done.
  intros r c. rewrite Hcount. simpl. rewrite Hcell. by rewrite row_hash_0.
Qed.

Lemma update_all_wf calls : ∀ self,
  wf self →
  ∃ self', update_all hash self calls = Ok self'
    ∧ wf self'
    ∧ hash_functions self' = hash_functions self
    ∧ w self' = w self ∧ d self' = d self ∧ k self' = k self
    ∧ ∀ r f c, hash_functions self !! r = Some f →
        cell (count self') r c
        = int32 (cell (count self) r c + exact_cell hash (w self) f calls c).
Proof.
  induction calls as [|[key increment] calls IH]; intros self Hwf; simpl.
  - exists self. split_and!; try done.
    intros r f c _. rewrite Z.add_0_r.
    symmetry. apply int32_id, cell_is_int32, Hwf.
  - destruct (update_wf self key increment Hwf)
      as (self1 & -> & Hwf1 & Hhfs1 & Hw1 & Hd1 & Hk1 & Hcell1).
    simpl.
    destruct (IH self1 Hwf1) as (self' & -> & Hwf' & Hhfs & Hw & Hd & Hk & Hcell).
    exists self'. split_and!; try congruence.
    intros r f c Hf. rewrite (Hcell r f c) by congruence.
    rewrite Hcell1, Hf, Hw1.
    destruct (decide (c = _)) as [->|Hc].
    + rewrite decide_True by done. rewrite int32_add_l. f_equal; lia.
    + rewrite decide_False by done. f_equal; lia.
Qed.
End calls.

(** ** Construction *)

Lemma cell_fresh w d k hfs r c : cell (count (fresh w d k hfs)) r c = 0.
Proof.
  unfold cell. simpl.
  destruct (replicate _ _ !! r) as [cells|] eqn:Hr; simpl; [|done].
  apply lookup_replicate in Hr as [-> _].
  destruct (replicate _ _ !! c) as [v|] eqn:Hc; simpl; [|done].
  by apply lookup_replicate in Hc as [-> _].
Qed.

Lemma fresh_wf w d k hfs :
  1 ≤ w → length hfs = Z.to_nat d → wf (fresh w d k hfs).
Proof.
  intros Hw Hd. split; simpl; try done.
  all: try constructor.
  - by rewrite length_replicate.
  - apply Forall_replicate. by rewrite length_replicate.
  - apply Forall_replicate, Forall_replicate. unfold is_int32, INT32_MIN, INT32_MAX. lia.
Qed.

Lemma init_Ok ceil_exp1_over ceil_log_inv draws delta epsilon k self :
  __init__ ceil_exp1_over ceil_log_inv draws delta epsilon k = Ok self →
  self = fresh (ceil_exp1_over epsilon) (ceil_log_inv delta) k
           (__generate_hash_function draws <$> seq 0 (Z.to_nat (ceil_log_inv delta)))
  ∧ 0 ≤ ceil_log_inv delta ∧ 0 ≤ ceil_exp1_over epsilon ∧ 1 ≤ k.
Proof.
  unfold __init__. destruct (_ || _); [done|]. destruct (_ || _); [done|].
  destruct (decide (k < 1)); [done|]. destruct (decide _); [done|].
  intros [= <-]. split; [done | lia].
Qed.

Lemma init_wf ceil_exp1_over ceil_log_inv draws delta epsilon k self :
  __init__ ceil_exp1_over ceil_log_inv draws delta epsilon k = Ok self →
  1 ≤ w self → wf self.
Proof.
  intros (-> & Hd & Hw & Hk)%init_Ok Hw1. simpl in Hw1.
  apply fresh_wf; [done|]. by rewrite length_fmap, length_seq.
Qed.

Lemma snapshot_length self : length (snapshot self) = size (top_k self).
Proof.
  unfold snapshot. rewrite length_fmap, length_reverse.
  rewrite merge_sort_Permutation. rewrite !length_fmap.
  apply length_map_to_list.
Qed.

(** ** Exact sums *)

Lemma exact_cell_bounds hash self_w f calls c :
  Forall (λ call : string * Z, 0 < call.2) calls →
  0 ≤ exact_cell hash self_w f calls c ≤ total_increment calls.
Proof.
  induction 1 as [|[key increment] calls Hpos _ IH]; simpl in *; [lia|].
  case_decide; lia.
Qed.

Lemma true_count_le_exact hash self_w f calls key :
  Forall (λ call : string * Z, 0 < call.2) calls →
  true_count calls key ≤ exact_cell hash self_w f calls (column_of hash self_w f key).
Proof.
  induction 1 as [|[key' increment] calls Hpos _ IH]; simpl in *; [lia|].
  destruct (decide (key' = key)) as [->|Hne].
  - rewrite decide_True by done. lia.
  - case_decide; lia.
Qed.

Lemma true_count_le_total calls key :
  Forall (λ call : string * Z, 0 < call.2) calls →
  true_count calls key ≤ total_increment calls.
Proof.
  induction 1 as [|[key' increment] calls Hpos _ IH]; simpl in *; [lia|].
  case_decide; lia.
Qed.

Lemma reachable_wf hash ceil_exp1_over ceil_log_inv draws delta epsilon k0 self0 calls self :
  __init__ ceil_exp1_over ceil_log_inv draws delta epsilon k0 = Ok self0 →
  1 ≤ w self0 →
  update_all hash self0 calls = Ok self →
  wf self ∧ hash_functions self = hash_functions self0 ∧ w self = w self0
  ∧ k self = k self0.
Proof.
  intros Hinit Hw Hrun. pose proof (init_wf _ _ _ _ _ _ _ Hinit Hw) as Hwf.
  destruct (update_all_wf hash calls self0 Hwf) as (self' & Hrun' & Hwf' & Hhfs & Hw' & _ & Hk & _).
  rewrite Hrun in Hrun'. injection Hrun' as <-. done.
Qed.

(** ** The hash only matters through its values *)

Section hash_ext.
Variables hash1 hash2 : string → Z.
Hypothesis same_hash : ∀ key, hash1 key = hash2 key.

Lemma update_rows_ext self_w hfs row key increment count :
  update_rows hash1 self_w hfs row key increment count
  = update_rows hash2 self_w hfs row key increment count.
Proof.
  revert row count. induction hfs as [|f hfs IH]; intros row count; simpl; [done|].
  rewrite same_hash. destruct (call_hash _ _ _) as [column|]; simpl; [|done].
  destruct (getitem _ _ _) as [c|]; simpl; [|done].
  destruct (setitem _ _ _ _) as [count'|]; simpl; [|done].
  apply IH.
Qed.

Lemma get_rows_ext self_w hfs row key count value :
  get_rows hash1 self_w hfs row key count value
  = get_rows hash2 self_w hfs row key count value.
Proof.
  revert row value. induction hfs as [|f hfs IH]; intros row value; simpl; [done|].
  rewrite same_hash. destruct (call_hash _ _ _) as [column|]; simpl; [|done].
  destruct (getitem _ _ _) as [c|]; simpl; [|done].
  apply IH.
Qed.

Lemma get_ext self key : get hash1 self key = get hash2 self key.
Proof. apply get_rows_ext. Qed.

Lemma update_heap_ext self key : update_heap hash1 self key = update_heap hash2 self key.
Proof. unfold update_heap. by rewrite get_ext. Qed.

Lemma update_ext self key increment :
  update hash1 self key increment = update hash2 self key increment.
Proof.
  unfold update. rewrite update_rows_ext.
  destruct (update_rows _ _ _ _ _ _ _) as [count'|]; simpl; [|done].
  apply update_heap_ext.
Qed.

Lemma update_all_ext calls : ∀ self,
  update_all hash1 self calls = update_all hash2 self calls.
Proof.
  induction calls as [|[key increment] calls IH]; intros self; simpl; [done|].
  rewrite update_ext. destruct (update _ _ _ _) as [self'|]; simpl; [|done].
  apply IH.
Qed.
End hash_ext.

(** ** The claims *)

(** C1 (amended). In a state reached from a valid construction whose
    candidate dictionary has fewer than k members, [observe(key)] for a key
    that is not a candidate inserts [[estimate, key]], with the freshly
    recomputed estimate, into both the heap and the dictionary provided the
    heap is empty or the estimate is at least the estimate at the root of
    the heap; otherwise heap and dictionary are left as they were. *)
Theorem observe_inserts_new_key hash ceil_exp1_over ceil_log_inv draws delta epsilon k0
    self0 calls self key :
  __init__ ceil_exp1_over ceil_log_inv draws delta epsilon k0 = Ok self0 →
  1 ≤ w self0 →
  update_all hash self0 calls = Ok self →
  top_k self !! key = None →
  Z.of_nat (size (top_k self)) < k self →
  ∃ counted estimate,
    update_rows hash (w self) (hash_functions self) 0 key 1 (count self) = Ok counted
    ∧ get hash (with_count self counted) key = Ok estimate
    ∧ (admits (with_count self counted) estimate = true →
       ∃ self' p q,
         observe hash self key = Ok self'
         ∧ get hash self' key = Ok estimate
         ∧ top_k self' !! key = Some p ∧ store self' !! p = Some (estimate, key)
         ∧ q ∈ heap self' ∧ store self' !! q = Some (estimate, key)
         ∧ size (top_k self') = S (size (top_k self))
         ∧ length (heap self') = S (length (heap self)))
    ∧ (admits (with_count self counted) estimate = false →
       observe hash self key = Ok (with_count self counted)).
Proof.
  intros Hinit Hw Hrun Hnew Hroom.
  destruct (reachable_wf _ _ _ _ _ _ _ _ _ _ Hinit Hw Hrun) as (Hwf & _).
  destruct (update_rows_spec hash (w self) (wf_width _ Hwf) (hash_functions self) 0
              key 1 (count self))
    as (counted & Hrows & Hlen & Hshape & Hint & _).
  { apply Hwf. }
  { rewrite (wf_rows _ Hwf). simpl. lia. }
  assert (wf (with_count self counted)) as Hwf1.
  { apply with_count_wf; [done | done | by rewrite Hlen, (wf_rows _ Hwf) |].
    apply Hint, Hwf. }
  destruct (get_succeeds hash _ key Hwf1) as (estimate & Hget & _).
  exists counted, estimate. split_and!; [done | done | |].
  - intros Hadmit. unfold observe, update, update_heap.
    rewrite Hrows. simpl. rewrite Hget. simpl. rewrite Hadmit, Hnew.
    rewrite decide_True by done.
    eexists. exists (length (store self ++ [(estimate, key)])), (length (store self)).
    split; [done|]. simpl. split_and!.
    + exact Hget.
    + by rewrite lookup_insert_eq.
    + by rewrite list_lookup_middle.
    + rewrite heappush_perm. by left.
    + rewrite lookup_app_l by (rewrite length_app; simpl; lia).
      by rewrite list_lookup_middle.
    + by rewrite map_size_insert_None.
    + by rewrite heappush_perm.
  - intros Hadmit. unfold observe, update, update_heap.
    rewrite Hrows. simpl. rewrite Hget. simpl. by rewrite Hadmit.
Qed.

Lemma observe_inserts_new_key_witness :
  ∃ self' p q,
    observe sample_hash (fresh 6 1 2 [__generate_hash_function sample_draws 0]) "a"%string
      = Ok self'
    ∧ top_k self' !! "a"%string = Some p ∧ store self' !! p = Some (1, "a"%string)
    ∧ q ∈ heap self' ∧ store self' !! q = Some (1, "a"%string).
Proof.
  pose (start := fresh 6 1 2 [__generate_hash_function sample_draws 0]).
  destruct (observe_inserts_new_key sample_hash sample_width sample_depth sample_draws
              (1 # 2) (1 # 2) 2 start [] start "a"%string)
    as (counted & estimate & Hrows & Hget & Hin & _).
  - vm_compute; reflexivity.
  - simpl; lia.
  - reflexivity.
  - reflexivity.
  - vm_compute; reflexivity.
  - vm_compute in Hrows. injection Hrows as <-.
    vm_compute in Hget. injection Hget as <-.
    destruct (Hin eq_refl) as (self' & p & q & Hobs & _ & Htop & Hp & Hq & Hsq & _).
    exists self', p, q. split_and!; [exact Hobs | exact Htop | exact Hp | exact Hq | exact Hsq].
Defined.

(** The claim C1 fails as stated: with k = 2, after [update("a", 5)] the
    dictionary has one member; [observe("b")] then computes the estimate 1,
    which is below the root of the heap, and "b" is inserted nowhere. *)
Lemma new_key_below_root_not_inserted :
  ∃ self self1 self2,
    __init__ sample_width sample_depth sample_draws (1 # 2) (1 # 2) 2 = Ok self
    ∧ update sample_hash self "a"%string 5 = Ok self1
    ∧ size (top_k self1) = 1%nat ∧ k self1 = 2
    ∧ top_k self1 !! "b"%string = None
    ∧ observe sample_hash self1 "b"%string = Ok self2
    ∧ get sample_hash self2 "b"%string = Ok 1
    ∧ top_k self2 !! "b"%string = None
    ∧ key_at (store self2) <$> heap self2 = ["a"%string].
Proof.
  do 3 eexists. split_and!.
  - vm_compute; reflexivity.
  - vm_compute; reflexivity.
  - vm_compute; reflexivity.
  - vm_compute; reflexivity.
  - vm_compute; reflexivity.
  - vm_compute; reflexivity.
  - vm_compute; reflexivity.
  - vm_compute; reflexivity.
  - vm_compute; reflexivity.
Qed.

(** C2. The code breaks the claim: with k = 1, after [observe("b")] and
    [observe("a")] (two keys in different columns) the dictionary holds two
    keys while the heap holds one; "a" is in the dictionary and has no heap
    entry, and the snapshot has two members. *)
Theorem top_k_outgrows_k :
  ∃ self self',
    __init__ sample_width sample_depth sample_draws (1 # 2) (1 # 2) 1 = Ok self
    ∧ observe_all sample_hash self ["b"; "a"]%string = Ok self'
    ∧ k self' = 1
    ∧ size (top_k self') = 2%nat
    ∧ is_Some (top_k self' !! "a"%string)
    ∧ key_at (store self') <$> heap self' = ["b"%string]
    ∧ snapshot self' = [("b", 1); ("a", 1)]%string.
Proof.
  do 2 eexists. split_and!.
  - vm_compute; reflexivity.
  - vm_compute; reflexivity.
  - vm_compute; reflexivity.
  - vm_compute; reflexivity.
  - vm_compute. by eexists.
  - vm_compute; reflexivity.
  - vm_compute; reflexivity.
Qed.

(** C3 (amended). As long as the increments are positive and their total is
    at most 2^31 - 1, [get] never returns less than the true cumulative
    count of a key. *)
Theorem estimate_at_least_true_count hash ceil_exp1_over ceil_log_inv draws delta epsilon k self calls :
  __init__ ceil_exp1_over ceil_log_inv draws delta epsilon k = Ok self →
  1 ≤ w self →
  Forall (λ call : string * Z, 0 < call.2) calls →
  total_increment calls ≤ INT32_MAX →
  ∃ self',
    update_all hash self calls = Ok self'
    ∧ ∀ key, ∃ v, get hash self' key = Ok v ∧ true_count calls key ≤ v.
Proof.
  intros Hinit Hw Hpos Htotal. pose proof (init_wf _ _ _ _ _ _ _ Hinit Hw) as Hwf.
  destruct (update_all_wf hash calls self Hwf)
    as (self' & Hrun & Hwf' & Hhfs & Hw' & _ & _ & Hcell).
  exists self'. split; [done|]. intros key.
  destruct (get_succeeds hash self' key Hwf') as (v & Hv & _ & _ & Hlo).
  exists v. split; [done|]. apply Hlo.
  - pose proof (true_count_le_total calls key Hpos).
    unfold INT32_MAX, maxsize in *. lia.
  - intros i f Hf. rewrite Hhfs in Hf. rewrite (Hcell i f _ Hf), Hw'.
    apply init_Ok in Hinit as (-> & _). rewrite cell_fresh. simpl.
    pose proof (exact_cell_bounds hash (ceil_exp1_over epsilon) f calls
                  (column_of hash (ceil_exp1_over epsilon) f key) Hpos).
    rewrite int32_id by (unfold is_int32, INT32_MIN, INT32_MAX in *; lia).
    by apply true_count_le_exact.
Qed.

Lemma estimate_at_least_true_count_witness :
  ∃ self' v,
    update_all sample_hash (fresh 6 1 1 [__generate_hash_function sample_draws 0])
      [("a", 2); ("b", 1); ("a", 3)]%string = Ok self'
    ∧ get sample_hash self' "a"%string = Ok v ∧ 5 ≤ v.
Proof.
  destruct (estimate_at_least_true_count sample_hash sample_width sample_depth sample_draws
              (1 # 2) (1 # 2) 1 (fresh 6 1 1 [__generate_hash_function sample_draws 0])
              [("a", 2); ("b", 1); ("a", 3)]%string)
    as (self' & Hrun & Hget).
  - vm_compute; reflexivity.
  - simpl; lia.
  - repeat constructor.
  - vm_compute. discriminate.
  - destruct (Hget "a"%string) as (v & Hv & Hle).
    exists self', v. split_and!; [exact Hrun | exact Hv | exact Hle].
Defined.

(** The claim C3 fails as stated: after [update("a", 2^31 - 1)] and
    [update("a", 1)], two calls with positive increments, [get("a")] is
    -2^31 while the true count of "a" is 2^31. *)
Lemma estimate_below_true_count :
  ∃ self self',
    __init__ sample_width sample_depth sample_draws (1 # 2) (1 # 2) 1 = Ok self
    ∧ update_all sample_hash self [("a", 2147483647); ("a", 1)]%string = Ok self'
    ∧ get sample_hash self' "a"%string = Ok (-2147483648)
    ∧ true_count [("a", 2147483647); ("a", 1)]%string "a"%string = 2147483648.
Proof.
  do 2 eexists. split_and!.
  - vm_compute; reflexivity.
  - vm_compute; reflexivity.
  - vm_compute; reflexivity.
  - vm_compute; reflexivity.
Qed.

(** C4 (amended). In every state reached from a valid construction, an
    [observe] call whose counters are all below 2^31 - 1 lowers the estimate
    of no key. *)
Theorem estimate_never_decreases hash ceil_exp1_over ceil_log_inv draws delta epsilon k self0
    calls self key :
  __init__ ceil_exp1_over ceil_log_inv draws delta epsilon k = Ok self0 →
  1 ≤ w self0 →
  update_all hash self0 calls = Ok self →
  (∀ r f, hash_functions self !! r = Some f →
     cell (count self) r (column_of hash (w self) f key) < INT32_MAX) →
  ∃ self',
    observe hash self key = Ok self'
    ∧ ∀ q, ∃ v v', get hash self q = Ok v ∧ get hash self' q = Ok v' ∧ v ≤ v'.
Proof.
  intros Hinit Hw Hrun Hroom.
  destruct (reachable_wf _ _ _ _ _ _ _ _ _ _ Hinit Hw Hrun) as (Hwf & _).
  destruct (update_wf hash self key 1 Hwf) as (self' & Hobs & Hwf' & Hhfs & Hw' & _ & _ & Hcell).
  exists self'. split; [done|]. intros q.
  destruct (get_succeeds hash self q Hwf) as (v & Hv & Hmax & Hup & _).
  destruct (get_succeeds hash self' q Hwf') as (v' & Hv' & _ & _ & Hlo').
  exists v, v'. split_and!; [done | done |].
  apply Hlo'; [done|]. intros i f Hf. rewrite Hhfs in Hf.
  rewrite Hcell, Hf, Hw'. specialize (Hup i f Hf). specialize (Hroom i f Hf).
  destruct (decide _) as [Heq|Hne]; [|done].
  rewrite Heq in *.
  pose proof (cell_is_int32 (count self) i (column_of hash (w self) f key) (wf_int32 _ Hwf)) as Hint.
  rewrite int32_id by (unfold is_int32, INT32_MIN, INT32_MAX in *; lia). lia.
Qed.

Lemma estimate_never_decreases_witness :
  ∃ self self' v v',
    update_all sample_hash (fresh 6 1 1 [__generate_hash_function sample_draws 0])
      [("a", 2); ("b", 1)]%string = Ok self
    ∧ observe sample_hash self "b"%string = Ok self'
    ∧ get sample_hash self "a"%string = Ok v
    ∧ get sample_hash self' "a"%string = Ok v' ∧ v ≤ v'.
Proof.
  pose (start := fresh 6 1 1 [__generate_hash_function sample_draws 0]).
  let r := eval vm_compute in (update_all sample_hash start [("a", 2); ("b", 1)]%string) in
  match r with Ok ?s => pose (self := s) end.
  exists self.
  destruct (estimate_never_decreases sample_hash sample_width sample_depth sample_draws
              (1 # 2) (1 # 2) 1 start [("a", 2); ("b", 1)]%string self "b"%string)
    as (self' & Hobs & Hget).
  - vm_compute; reflexivity.
  - simpl; lia.
  - vm_compute; reflexivity.
  - intros [|r] f Hf; [|discriminate]. injection Hf as <-. vm_compute. reflexivity.
  - destruct (Hget "a"%string) as (v & v' & Hv & Hv' & Hle).
    exists self', v, v'.
    split_and!; [vm_compute; reflexivity | exact Hobs | exact Hv | exact Hv' | exact Hle].
Defined.

(** The claim C4 fails as stated: in the state reached by
    [update("a", 2^31 - 1)], one more [observe("a")] takes the estimate of
    "a" from 2^31 - 1 down to -2^31. *)
Lemma estimate_drops_at_int32_max :
  ∃ self self1 self2,
    __init__ sample_width sample_depth sample_draws (1 # 2) (1 # 2) 1 = Ok self
    ∧ update sample_hash self "a"%string 2147483647 = Ok self1
    ∧ get sample_hash self1 "a"%string = Ok 2147483647
    ∧ observe sample_hash self1 "a"%string = Ok self2
    ∧ get sample_hash self2 "a"%string = Ok (-2147483648).
Proof.
  do 3 eexists. split_and!.
  - vm_compute; reflexivity.
  - vm_compute; reflexivity.
  - vm_compute; reflexivity.
  - vm_compute; reflexivity.
  - vm_compute; reflexivity.
Qed.

(** C5. [__init__] raises [ValueError], and returns no sketch, when delta is
    0 or 1, when epsilon is at most 0 or at least 1, or when k is 0; with
    delta = 0.5, epsilon = 0.5 and k = 1 it returns the fresh sketch (the
    two dimensions computed by numpy being non-negative). *)
Theorem init_validates_parameters ceil_exp1_over ceil_log_inv draws :
  0 ≤ ceil_exp1_over (1 # 2) → 0 ≤ ceil_log_inv (1 # 2) →
  (∀ delta epsilon k0,
     (delta == 0)%Q ∨ (delta == 1)%Q ∨ (epsilon <= 0)%Q ∨ (1 <= epsilon)%Q ∨ k0 = 0 →
     __init__ ceil_exp1_over ceil_log_inv draws delta epsilon k0 = Raise ValueError)
  ∧ __init__ ceil_exp1_over ceil_log_inv draws (1 # 2) (1 # 2) 1
    = Ok (fresh (ceil_exp1_over (1 # 2)) (ceil_log_inv (1 # 2)) 1
            (__generate_hash_function draws <$> seq 0 (Z.to_nat (ceil_log_inv (1 # 2))))).
Proof.
  intros Hw Hd. split.
  - intros delta epsilon k0 Hbad. unfold __init__.
    destruct (Qle_bool delta 0 || Qle_bool 1 delta) eqn:Hdelta; [done|].
    destruct (Qle_bool epsilon 0 || Qle_bool 1 epsilon) eqn:Hepsilon; [done|].
    destruct (decide (k0 < 1)); [done|].
    apply orb_false_elim in Hdelta as [Hd0 Hd1].
    apply orb_false_elim in Hepsilon as [He0 He1].
    exfalso. destruct Hbad as [H|[H|[H|[H|H]]]].
    + assert (Qle_bool delta 0 = true) by (apply Qle_bool_iff; rewrite H; apply Qle_refl).
      congruence.
    + assert (Qle_bool 1 delta = true) by (apply Qle_bool_iff; rewrite H; apply Qle_refl).
      congruence.
    + apply Qle_bool_iff in H. congruence.
    + apply Qle_bool_iff in H. congruence.
    + lia.
  - unfold __init__. simpl.
    rewrite decide_False by lia. done.
Qed.

Lemma init_validates_parameters_witness :
  __init__ sample_width sample_depth sample_draws 0 (1 # 2) 1 = Raise ValueError
  ∧ __init__ sample_width sample_depth sample_draws (1 # 2) (3 # 2) 1 = Raise ValueError
  ∧ __init__ sample_width sample_depth sample_draws (1 # 2) (1 # 2) 0 = Raise ValueError
  ∧ __init__ sample_width sample_depth sample_draws (1 # 2) (1 # 2) 1
    = Ok (fresh 6 1 1 [__generate_hash_function sample_draws 0]).
Proof.
  destruct (init_validates_parameters sample_width sample_depth sample_draws)
    as [Hbad Hgood]; [vm_compute; discriminate | vm_compute; discriminate |].
  split_and!.
  - apply Hbad. left. reflexivity.
  - apply Hbad. right. right. right. left. vm_compute. discriminate.
  - apply Hbad. right. right. right. right. reflexivity.
  - exact Hgood.
Defined.

(** C6 (amended). No sequence of updates with 32-bit increments raises, and
    afterwards every counter holds the sum of the increments hashed to it
    reduced to a signed 32-bit value: the exact sum as long as that sum fits
    in 32 bits, and the sum modulo 2^32 beyond. *)
Theorem counters_hold_sum_modulo hash ceil_exp1_over ceil_log_inv draws delta epsilon k self calls :
  __init__ ceil_exp1_over ceil_log_inv draws delta epsilon k = Ok self →
  1 ≤ w self →
  Forall (λ call : string * Z, is_int32 call.2) calls →
  ∃ self',
    update_all hash self calls = Ok self'
    ∧ ∀ r f c, hash_functions self !! r = Some f →
        cell (count self') r c = int32 (exact_cell hash (w self) f calls c)
        ∧ (is_int32 (exact_cell hash (w self) f calls c) →
           cell (count self') r c = exact_cell hash (w self) f calls c).
Proof.
  intros Hinit Hw _. pose proof (init_wf _ _ _ _ _ _ _ Hinit Hw) as Hwf.
  destruct (update_all_wf hash calls self Hwf) as (self' & Hrun & _ & _ & _ & _ & _ & Hcell).
  exists self'. split; [done|]. intros r f c Hf.
  assert (cell (count self') r c = int32 (exact_cell hash (w self) f calls c)) as Heq.
  { rewrite (Hcell r f c Hf).
    apply init_Ok in Hinit as (-> & _). by rewrite cell_fresh. }
  split; [done|]. intros Hfit. by rewrite Heq, int32_id.
Qed.

Lemma counters_hold_sum_modulo_witness :
  ∃ self',
    update_all sample_hash (fresh 6 1 1 [__generate_hash_function sample_draws 0])
      [("a", 2); ("b", 1); ("a", 3)]%string = Ok self'
    ∧ cell (count self') 0 4 = 5.
Proof.
  destruct (counters_hold_sum_modulo sample_hash sample_width sample_depth sample_draws
              (1 # 2) (1 # 2) 1 (fresh 6 1 1 [__generate_hash_function sample_draws 0])
              [("a", 2); ("b", 1); ("a", 3)]%string)
    as (self' & Hrun & Hcell);
    [vm_compute; reflexivity | simpl; lia
     | repeat constructor; vm_compute; discriminate |].
  exists self'. split; [exact Hrun|].
  destruct (Hcell 0%nat (__generate_hash_function sample_draws 0) 4%nat eq_refl) as [_ Hexact].
  apply Hexact. vm_compute. split; discriminate.
Defined.

(** The claim C6 fails as stated: after [update("a", 2^31 - 1)] and
    [update("a", 1)] nothing was raised and the counter of "a" holds
    -2^31, while the sum of its increments is 2^31. *)
Lemma counter_wraps_without_error :
  ∃ self self',
    __init__ sample_width sample_depth sample_draws (1 # 2) (1 # 2) 1 = Ok self
    ∧ update_all sample_hash self [("a", 2147483647); ("a", 1)]%string = Ok self'
    ∧ column_of sample_hash (w self) (__generate_hash_function sample_draws 0) "a" = 4%nat
    ∧ cell (count self') 0 4 = -2147483648
    ∧ exact_cell sample_hash (w self) (__generate_hash_function sample_draws 0)
        [("a", 2147483647); ("a", 1)]%string 4 = 2147483648.
Proof.
  do 2 eexists. split_and!.
  - vm_compute; reflexivity.
  - vm_compute; reflexivity.
  - vm_compute; reflexivity.
  - vm_compute; reflexivity.
  - vm_compute; reflexivity.
Qed.

(** C7. The code breaks the claim: after [observe("a")] twice the estimate
    of "a" is 2 and the dictionary's pair says 2, but the pair in the heap
    is another list object and still says 1. *)
Theorem heap_entry_left_stale :
  ∃ self self' p q,
    __init__ sample_width sample_depth sample_draws (1 # 2) (1 # 2) 1 = Ok self
    ∧ observe_all sample_hash self ["a"; "a"]%string = Ok self'
    ∧ get sample_hash self' "a"%string = Ok 2
    ∧ top_k self' !! "a"%string = Some p
    ∧ store self' !! p = Some (2, "a"%string)
    ∧ heap self' = [q]
    ∧ store self' !! q = Some (1, "a"%string).
Proof.
  do 4 eexists. split_and!.
  - vm_compute; reflexivity.
  - vm_compute; reflexivity.
  - vm_compute; reflexivity.
  - vm_compute; reflexivity.
  - vm_compute; reflexivity.
  - vm_compute; reflexivity.
  - vm_compute; reflexivity.
Qed.

(** C8. On a validly constructed sketch with at least one column, every hash
    function sends every key to a column in [0, w), and no sequence of
    [observe] calls raises; after it [get] returns a value for every key and
    the snapshot lists the candidate dictionary. *)
Theorem calls_never_fail hash ceil_exp1_over ceil_log_inv draws delta epsilon k self keys :
  __init__ ceil_exp1_over ceil_log_inv draws delta epsilon k = Ok self →
  1 ≤ w self →
  (∀ f key, f ∈ hash_functions self →
     ∃ c, call_hash (w self) f (Z.abs (hash key)) = Ok c ∧ 0 ≤ c < w self)
  ∧ ∃ self',
      observe_all hash self keys = Ok self'
      ∧ hash_functions self' = hash_functions self ∧ w self' = w self
      ∧ (∀ key, ∃ v, get hash self' key = Ok v)
      ∧ length (snapshot self') = size (top_k self').
Proof.
  intros Hinit Hw. pose proof (init_wf _ _ _ _ _ _ _ Hinit Hw) as Hwf. split.
  - intros f key _. destruct (call_hash_column hash (w self) f key Hw) as [Hc Hlt].
    eexists. split; [exact Hc | lia].
  - unfold observe_all.
    destruct (update_all_wf hash ((λ key, (key, 1)) <$> keys) self Hwf)
      as (self' & Hrun & Hwf' & Hhfs & Hw' & _).
    exists self'. split_and!; try done.
    + intros key. destruct (get_succeeds hash self' key Hwf') as (v & Hv & _). by exists v.
    + apply snapshot_length.
Qed.

Lemma calls_never_fail_witness :
  ∃ self self',
    __init__ sample_width sample_depth sample_draws (1 # 2) (1 # 2) 1 = Ok self
    ∧ observe_all sample_hash self ["b"; "a"; "b"]%string = Ok self'
    ∧ ∃ v, get sample_hash self' "a"%string = Ok v.
Proof.
  exists (fresh 6 1 1 [__generate_hash_function sample_draws 0]).
  destruct (calls_never_fail sample_hash sample_width sample_depth sample_draws
              (1 # 2) (1 # 2) 1 (fresh 6 1 1 [__generate_hash_function sample_draws 0])
              ["b"; "a"; "b"]%string)
    as (_ & self' & Hrun & _ & _ & Hget & _);
    [vm_compute; reflexivity | simpl; lia |].
  exists self'. split_and!; [vm_compute; reflexivity | exact Hrun | apply Hget].
Defined.

(** C9. Two sketches built with the same parameters and the same random
    draws, fed the same keys under hashes that agree on every key, end with
    the same estimates and the same snapshot. *)
Theorem same_inputs_same_results hash1 hash2 ceil_exp1_over ceil_log_inv draws1 draws2
    delta epsilon k0 self1 self2 keys :
  (∀ key, hash1 key = hash2 key) →
  (∀ i, draws1 i = draws2 i) →
  __init__ ceil_exp1_over ceil_log_inv draws1 delta epsilon k0 = Ok self1 →
  __init__ ceil_exp1_over ceil_log_inv draws2 delta epsilon k0 = Ok self2 →
  1 ≤ w self1 →
  ∃ end1 end2,
    observe_all hash1 self1 keys = Ok end1
    ∧ observe_all hash2 self2 keys = Ok end2
    ∧ snapshot end1 = snapshot end2
    ∧ ∀ key, get hash1 end1 key = get hash2 end2 key.
Proof.
  intros Hhash Hdraws Hinit1 Hinit2 Hw.
  pose proof (init_wf _ _ _ _ _ _ _ Hinit1 Hw) as Hwf.
  apply init_Ok in Hinit1 as (-> & _). apply init_Ok in Hinit2 as (-> & _).
  assert (__generate_hash_function draws1 <$> seq 0 (Z.to_nat (ceil_log_inv delta))
          = __generate_hash_function draws2 <$> seq 0 (Z.to_nat (ceil_log_inv delta))) as Hhfs.
  { apply list_fmap_ext. intros _ i _. unfold __generate_hash_function.
    by rewrite !Hdraws. }
  rewrite <- Hhfs. unfold observe_all.
  destruct (update_all_wf hash1 ((λ key, (key, 1)) <$> keys) _ Hwf) as (end1 & Hrun & _).
  exists end1, end1. split_and!; [done | | done |].
  - by rewrite <- (update_all_ext hash1 hash2 Hhash).
  - intros key. by apply get_ext.
Qed.

Lemma same_inputs_same_results_witness :
  ∃ end1 end2,
    observe_all sample_hash (fresh 6 1 1 [__generate_hash_function sample_draws 0])
      ["a"; "b"; "a"]%string = Ok end1
    ∧ observe_all (λ key, sample_hash key + 0)
        (fresh 6 1 1 [__generate_hash_function (λ i, sample_draws i + 0) 0])
        ["a"; "b"; "a"]%string = Ok end2
    ∧ snapshot end1 = snapshot end2
    ∧ get sample_hash end1 "b"%string = get (λ key, sample_hash key + 0) end2 "b"%string.
Proof.
  destruct (same_inputs_same_results sample_hash (λ key, sample_hash key + 0)
              sample_width sample_depth sample_draws (λ i, sample_draws i + 0)
              (1 # 2) (1 # 2) 1
              (fresh 6 1 1 [__generate_hash_function sample_draws 0])
              (fresh 6 1 1 [__generate_hash_function (λ i, sample_draws i + 0) 0])
              ["a"; "b"; "a"]%string)
    as (end1 & end2 & Hrun1 & Hrun2 & Hsnap & Hget).
  - intros key. lia.
  - intros i. lia.
  - vm_compute; reflexivity.
  - vm_compute; reflexivity.
  - simpl; lia.
  - exists end1, end2. split_and!; [exact Hrun1 | exact Hrun2 | exact Hsnap | apply Hget].
Defined.

(** C10. On a freshly constructed sketch with at least one row and one
    column, [get] returns 0 for every key (not the initial value
    [sys.maxsize] of its accumulator), the heap and the candidate dictionary
    are empty, and the snapshot is the empty list. *)
Theorem fresh_sketch_is_empty hash ceil_exp1_over ceil_log_inv draws delta epsilon k self :
  __init__ ceil_exp1_over ceil_log_inv draws delta epsilon k = Ok self →
  1 ≤ w self → 1 ≤ d self →
  (∀ key, get hash self key = Ok 0)
  ∧ heap self = [] ∧ top_k self = ∅ ∧ snapshot self = [].
Proof.
  intros Hinit Hw Hd.
  pose proof (init_wf _ _ _ _ _ _ _ Hinit Hw) as Hwf.
  apply init_Ok in Hinit as (-> & _ & _ & _). simpl in Hd.
  split; [|done].
  intros key. destruct (get_succeeds hash _ key Hwf) as (v & -> & _ & Hup & Hlo).
  f_equal. apply Z.le_antisymm.
  - pose proof (Hup 0%nat (__generate_hash_function draws 0)) as Hup0.
    rewrite cell_fresh in Hup0. apply Hup0. simpl.
    destruct (Z.to_nat (ceil_log_inv delta)) as [|n] eqn:Hn; [lia | done].
  - apply Hlo; [done|]. intros i f _. by rewrite cell_fresh.
Qed.

Lemma fresh_sketch_is_empty_witness :
  ∃ self,
    __init__ sample_width sample_depth sample_draws (1 # 2) (1 # 2) 1 = Ok self
    ∧ (∀ key, get sample_hash self key = Ok 0)
    ∧ heap self = [] ∧ top_k self = ∅ ∧ snapshot self = [].
Proof.
  eexists. split; [vm_compute; reflexivity|].
  apply (fresh_sketch_is_empty sample_hash sample_width sample_depth sample_draws
           (1 # 2) (1 # 2) 1);
    [vm_compute; reflexivity | simpl; lia | simpl; lia].
Defined.

(** ** The same failures for every hash function and every key *)

Section estimates.
Variable hash : string → Z.

(** [get] returns [n] when every counter of the key holds [n]. *)
Lemma get_value self key n :
  wf self → hash_functions self ≠ [] → n ≤ maxsize →
  (∀ i f, hash_functions self !! i = Some f →
     cell (count self) i (column_of hash (w self) f key) = n) →
  get hash self key = Ok n.
Proof.
  intros Hwf Hrows Hmax Hcells.
  destruct (get_succeeds hash self key Hwf) as (v & -> & _ & Hup & Hlo).
  f_equal. apply Z.le_antisymm.
  - destruct (hash_functions self) as [|f hfs] eqn:Hhfs; [done|].
    specialize (Hup 0%nat f eq_refl). specialize (Hcells 0%nat f eq_refl). lia.
  - apply Hlo; [done|]. intros i f Hf. specialize (Hcells i f Hf). lia.
Qed.

(** The state after one [update] call, spelled out. *)
Lemma update_unfold self key increment counted estimate :
  update_rows hash (w self) (hash_functions self) 0 key increment (count self) = Ok counted →
  get hash (with_count self counted) key = Ok estimate →
  update hash self key increment =
    let self := with_count self counted in
    if admits self estimate then
      match top_k self !! key with
      | Some old_pair =>
          let st := <[old_pair := (estimate, (deref (store self) old_pair).2)]> (store self) in
          Ok (with_top self st (heapify (addr_lt st) (heap self)) (top_k self))
      | None =>
          if decide (Z.of_nat (size (top_k self)) < k self) then
            let pushed := length (store self) in
            let st := store self ++ [(estimate, key)] in
            let h := heappush (addr_lt st) (heap self) pushed in
            let kept := length st in
            let st := st ++ [(estimate, key)] in
            Ok (with_top self st h (<[key := kept]> (top_k self)))
          else
            let new_pair := length (store self) in
            let st := store self ++ [(estimate, key)] in
            let '(old_pair, h) := heappushpop (addr_lt st) (heap self) new_pair in
            let old_key := (deref st old_pair).2 in
            t ← (if decide ((deref st new_pair).2 ≠ old_key) then
                   match top_k self !! old_key with
                   | Some _ => Ok (<[key := new_pair]> (delete old_key (top_k self)))
                   | None => Raise KeyError
                   end
                 else Ok (top_k self));
            Ok (with_top self st h (<[key := new_pair]> t))
      end
    else Ok self.
Proof.
  intros Hrows Hget. unfold update. rewrite Hrows. simpl.
  unfold update_heap. rewrite Hget. done.
Qed.

(** What C7 runs into, for every key: on any valid sketch, after [observe(key)] twice the
    pair of the dictionary holds the estimate 2 and the pair of the heap,
    a different object, still holds 1. *)
Lemma second_observe_misses_heap_entry ceil_exp1_over ceil_log_inv draws delta epsilon k0
    self key :
  __init__ ceil_exp1_over ceil_log_inv draws delta epsilon k0 = Ok self →
  1 ≤ w self → 1 ≤ d self →
  ∃ self',
    observe_all hash self [key; key] = Ok self'
    ∧ get hash self' key = Ok 2
    ∧ top_k self' = {[ key := 1%nat ]}
    ∧ heap self' = [0%nat]
    ∧ store self' = [(1, key); (2, key)].
Proof.
  intros Hinit Hw Hd. pose proof (init_wf _ _ _ _ _ _ _ Hinit Hw) as Hwf.
  apply init_Ok in Hinit as (-> & _ & _ & Hk). simpl in Hw, Hd.
  set (hfs := __generate_hash_function draws <$> seq 0 (Z.to_nat (ceil_log_inv delta))) in *.
  assert (hfs ≠ []) as Hne.
  { unfold hfs. destruct (Z.to_nat (ceil_log_inv delta)) eqn:Hn; [lia | done]. }
  set (W := ceil_exp1_over epsilon) in *. set (D := ceil_log_inv delta) in *.
  (* first call *)
  destruct (update_rows_spec hash W Hw hfs 0 key 1 (count (fresh W D k0 hfs)))
    as (c1 & Hrows1 & Hlen1 & Hshape1 & Hint1 & Hcell1).
  { apply Hwf. } { rewrite (wf_rows _ Hwf). simpl. lia. }
  assert (wf (with_count (fresh W D k0 hfs) c1)) as Hwf1.
  { apply with_count_wf; [done | done | by rewrite Hlen1, (wf_rows _ Hwf) | apply Hint1, Hwf]. }
  assert (get hash (with_count (fresh W D k0 hfs) c1) key = Ok 1) as Hget1.
  { apply get_value; [done | done | done |]. simpl. intros i f Hf.
    rewrite Hcell1, row_hash_0, Hf. rewrite decide_True by done.
    by rewrite cell_fresh. }
  unfold observe_all. simpl. unfold observe_all.
  rewrite (update_unfold _ key 1 c1 1 Hrows1 Hget1). simpl.
  rewrite lookup_empty, map_size_empty. rewrite decide_True by lia. simpl.
  (* second call *)
  set (s1 := with_top _ _ _ _).
  assert (wf s1) as Hwfs1.
  { destruct (update_wf hash (fresh W D k0 hfs) key 1 Hwf) as (s & Hs & Hwfs & _).
    rewrite (update_unfold _ key 1 c1 1 Hrows1 Hget1) in Hs. simpl in Hs.
    rewrite lookup_empty, map_size_empty in Hs. rewrite decide_True in Hs by lia.
    by injection Hs as <-. }
  destruct (update_rows_spec hash W Hw hfs 0 key 1 c1)
    as (c2 & Hrows2 & Hlen2 & Hshape2 & Hint2 & Hcell2).
  { done. } { rewrite Hlen1, (wf_rows _ Hwf). simpl. lia. }
  assert (wf (with_count s1 c2)) as Hwf2.
  { apply with_count_wf; [done | done | | apply Hint2, Hint1, Hwf].
    simpl. by rewrite Hlen2, Hlen1, (wf_rows _ Hwf). }
  assert (get hash (with_count s1 c2) key = Ok 2) as Hget2.
  { apply get_value; [done | done | done |]. simpl. intros i f Hf.
    rewrite Hcell2, row_hash_0, Hf. rewrite decide_True by done.
    rewrite Hcell1, row_hash_0, Hf. rewrite decide_True by done.
    by rewrite cell_fresh. }
  rewrite (update_unfold s1 key 1 c2 2 Hrows2 Hget2). simpl.
  rewrite lookup_insert_eq. simpl.
  eexists. split; [done|]. split_and!; try done.
Qed.

(** [get] returns [n] when one counter of the key holds [n] and none holds
    less. *)
Lemma get_minimum self key n :
  wf self → n ≤ maxsize →
  (∃ i f, hash_functions self !! i = Some f
     ∧ cell (count self) i (column_of hash (w self) f key) = n) →
  (∀ i f, hash_functions self !! i = Some f →
     n ≤ cell (count self) i (column_of hash (w self) f key)) →
  get hash self key = Ok n.
Proof.
  intros Hwf Hmax (i & f & Hf & Hn) Hcells.
  destruct (get_succeeds hash self key Hwf) as (v & -> & _ & Hup & Hlo).
  f_equal. apply Z.le_antisymm.
  - specialize (Hup i f Hf). lia.
  - by apply Hlo.
Qed.

(** What C2 runs into, for every pair of keys: with k = 1, observing [key1] and then a
    smaller key [key2] that some row keeps apart from [key1] leaves two keys
    in the dictionary and one entry in the heap. *)
Lemma tie_with_smaller_key_grows_top_k ceil_exp1_over ceil_log_inv draws delta epsilon
    self key1 key2 :
  __init__ ceil_exp1_over ceil_log_inv draws delta epsilon 1 = Ok self →
  1 ≤ w self →
  (∃ i f, hash_functions self !! i = Some f
     ∧ column_of hash (w self) f key2 ≠ column_of hash (w self) f key1) →
  key1 ≠ key2 → String.ltb key1 key2 = false →
  ∃ self',
    observe_all hash self [key1; key2] = Ok self'
    ∧ k self' = 1
    ∧ top_k self' = <[key2 := 2%nat]> {[ key1 := 1%nat ]}
    ∧ size (top_k self') = 2%nat
    ∧ heap self' = [0%nat]
    ∧ store self' = [(1, key1); (1, key1); (1, key2)].
Proof.
  intros Hinit Hw Hapart Hkeys Horder. pose proof (init_wf _ _ _ _ _ _ _ Hinit Hw) as Hwf.
  apply init_Ok in Hinit as (-> & _ & _ & _). simpl in Hw, Hapart.
  set (hfs := __generate_hash_function draws <$> seq 0 (Z.to_nat (ceil_log_inv delta))) in *.
  assert (hfs ≠ []) as Hne.
  { destruct Hapart as (i & f & Hf & _). intros Hnil. by rewrite Hnil in Hf. }
  set (W := ceil_exp1_over epsilon) in *. set (D := ceil_log_inv delta) in *.
  (* first call *)
  destruct (update_rows_spec hash W Hw hfs 0 key1 1 (count (fresh W D 1 hfs)))
    as (c1 & Hrows1 & Hlen1 & Hshape1 & Hint1 & Hcell1).
  { apply Hwf. } { rewrite (wf_rows _ Hwf). simpl. lia. }
  assert (wf (with_count (fresh W D 1 hfs) c1)) as Hwf1.
  { apply with_count_wf; [done | done | by rewrite Hlen1, (wf_rows _ Hwf) | apply Hint1, Hwf]. }
  assert (get hash (with_count (fresh W D 1 hfs) c1) key1 = Ok 1) as Hget1.
  { apply get_value; [done | done | done |]. simpl. intros i f Hf.
    rewrite Hcell1, row_hash_0, Hf. rewrite decide_True by done.
    by rewrite cell_fresh. }
  unfold observe_all. simpl. unfold observe_all.
  rewrite (update_unfold _ key1 1 c1 1 Hrows1 Hget1). simpl.
  rewrite lookup_empty, map_size_empty. rewrite decide_True by lia. simpl.
  (* second call *)
  set (s1 := with_top _ _ _ _).
  assert (wf s1) as Hwfs1.
  { destruct (update_wf hash (fresh W D 1 hfs) key1 1 Hwf) as (s & Hs & Hwfs & _).
    rewrite (update_unfold _ key1 1 c1 1 Hrows1 Hget1) in Hs. simpl in Hs.
    rewrite lookup_empty, map_size_empty in Hs. rewrite decide_True in Hs by lia.
    by injection Hs as <-. }
  destruct (update_rows_spec hash W Hw hfs 0 key2 1 c1)
    as (c2 & Hrows2 & Hlen2 & Hshape2 & Hint2 & Hcell2).
  { done. } { rewrite Hlen1, (wf_rows _ Hwf). simpl. lia. }
  assert (wf (with_count s1 c2)) as Hwf2.
  { apply with_count_wf; [done | done | | apply Hint2, Hint1, Hwf].
    simpl. by rewrite Hlen2, Hlen1, (wf_rows _ Hwf). }
  assert (get hash (with_count s1 c2) key2 = Ok 1) as Hget2.
  { apply get_minimum; [done | done | |]; simpl.
    - destruct Hapart as (i & f & Hf & Hcol). exists i, f. split; [done|].
      rewrite Hcell2, row_hash_0, Hf. rewrite decide_True by done.
      rewrite Hcell1, row_hash_0, Hf. rewrite decide_False by done.
      by rewrite cell_fresh.
    - intros i f Hf.
      rewrite Hcell2, row_hash_0, Hf. rewrite decide_True by done.
      rewrite Hcell1, row_hash_0, Hf. rewrite cell_fresh.
      case_decide; done. }
  rewrite (update_unfold s1 key2 1 c2 1 Hrows2 Hget2). simpl.
  rewrite lookup_insert_ne by done. rewrite lookup_empty.
  rewrite map_size_insert_None by apply lookup_empty.
  rewrite map_size_empty. rewrite decide_False by lia.
  unfold addr_lt, entry_lt. simpl.
  rewrite (decide_False (P := key1 = key2)) by done. rewrite Horder. simpl.
  rewrite decide_False by (intros Hneq; by apply Hneq). simpl.
  eexists. split; [done|]. simpl. split_and!; try done.
  rewrite map_size_insert_None by (by rewrite lookup_insert_ne, lookup_empty).
  by rewrite map_size_insert_None, map_size_empty by apply lookup_empty.
Qed.

(** The counters of [key] after [n] events for [key] alone. *)
Lemma exact_cell_replicate self_w f key n :
  exact_cell hash self_w f ((λ key, (key, 1)) <$> replicate n key)
    (column_of hash self_w f key) = Z.of_nat n.
Proof.
  induction n as [|n IH]; [done|].
  rewrite replicate_S, fmap_cons. cbn [exact_cell].
  rewrite decide_True by done. rewrite IH. lia.
Qed.

(** The drop of C4 with [observe] calls only: 2^31 - 1 events for one key bring its
    estimate to 2^31 - 1, and one more event takes it down to -2^31. *)
Lemma estimate_drops_after_many_observes ceil_exp1_over ceil_log_inv draws delta epsilon k0
    self key :
  __init__ ceil_exp1_over ceil_log_inv draws delta epsilon k0 = Ok self →
  1 ≤ w self → 1 ≤ d self →
  ∃ self1 self2,
    observe_all hash self (replicate (Z.to_nat INT32_MAX) key) = Ok self1
    ∧ get hash self1 key = Ok INT32_MAX
    ∧ observe hash self1 key = Ok self2
    ∧ get hash self2 key = Ok INT32_MIN.
Proof.
  intros Hinit Hw Hd. pose proof (init_wf _ _ _ _ _ _ _ Hinit Hw) as Hwf.
  assert (hash_functions self ≠ []) as Hne.
  { apply init_Ok in Hinit as (-> & _). simpl in *.
    destruct (Z.to_nat (ceil_log_inv delta)) eqn:Hn; [lia | done]. }
  unfold observe_all.
  destruct (update_all_wf hash ((λ key, (key, 1)) <$> replicate (Z.to_nat INT32_MAX) key)
              self Hwf)
    as (self1 & Hrun & Hwf1 & Hhfs1 & Hw1 & _ & _ & Hcell1).
  destruct (update_wf hash self1 key 1 Hwf1)
    as (self2 & Hobs & Hwf2 & Hhfs2 & Hw2 & _ & _ & Hcell2).
  assert (∀ i f, hash_functions self !! i = Some f →
            cell (count self1) i (column_of hash (w self) f key) = INT32_MAX) as Hfull.
  { intros i f Hf. rewrite (Hcell1 i f _ Hf), exact_cell_replicate.
    apply init_Ok in Hinit as (-> & _). rewrite cell_fresh.
    rewrite Z.add_0_l. rewrite Z2Nat.id by done. done. }
  exists self1, self2. split_and!; [done | | done |].
  - apply get_value; [done | congruence | done |].
    intros i f Hf. rewrite Hhfs1 in Hf. rewrite Hw1. by apply Hfull.
  - apply get_value; [done | congruence | done |].
    intros i f Hf. rewrite Hhfs2, Hhfs1 in Hf. rewrite Hw2, Hw1.
    rewrite Hcell2, Hhfs1, Hf, Hw1. rewrite decide_True by done.
    by rewrite Hfull.
Qed.
End estimates.

(** The drop of C4 at the sample sketch, with [observe] calls only. *)
Lemma estimate_drops_after_2_31_events :
  ∃ self self1 self2,
    __init__ sample_width sample_depth sample_draws (1 # 2) (1 # 2) 1 = Ok self
    ∧ observe_all sample_hash self (replicate (Z.to_nat INT32_MAX) "a"%string) = Ok self1
    ∧ get sample_hash self1 "a"%string = Ok INT32_MAX
    ∧ observe sample_hash self1 "a"%string = Ok self2
    ∧ get sample_hash self2 "a"%string = Ok INT32_MIN.
Proof.
  exists (fresh 6 1 1 [__generate_hash_function sample_draws 0]).
  destruct (estimate_drops_after_many_observes sample_hash sample_width sample_depth
              sample_draws (1 # 2) (1 # 2) 1
              (fresh 6 1 1 [__generate_hash_function sample_draws 0]) "a"%string)
    as (self1 & self2 & H1 & H2 & H3 & H4);
    [vm_compute; reflexivity | simpl; lia | simpl; lia |].
  exists self1, self2. split_and!; [vm_compute; reflexivity | done..].
Qed.

(** ** The branches of [update_heap] *)

Section branches.
Variable hash : string → Z.

Lemma update_heap_step self key estimate :
  wf self → get hash self key = Ok estimate →
  ∃ self',
    update_heap hash self key = Ok self'
    ∧ count self' = count self ∧ hash_functions self' = hash_functions self
    ∧ w self' = w self ∧ d self' = d self ∧ k self' = k self
    ∧ heap_step self key estimate self'.
Proof.
  intros [Hw Hrows Hcols Hint Halloc Hkeys Htop] Hget.
  unfold update_heap. rewrite Hget. simpl.
  destruct (admits self estimate) eqn:Hadmit.
  2: { exists self. split_and!; try done. by apply step_refused. }
  destruct (top_k self !! key) as [p|] eqn:Hkey.
  { eexists. split; [done|]. split_and!; try done.
    by eapply step_refreshed. }
  destruct (decide _) as [Hroom|Hfull].
  { eexists. split; [done|]. split_and!; try done.
    eapply step_pushed; try done. simpl.
    by rewrite length_app, Nat.add_1_r. }
  unfold heappushpop. destruct (heap self) as [|root rest] eqn:Hheap.
  { rewrite deref_snoc. simpl. rewrite decide_False by (intros Hne; by apply Hne).
    simpl. eexists. split; [done|]. split_and!; try done.
    eapply step_bounced; try done. by left. }
  destruct (addr_lt _ root _) eqn:Hlt.
  - apply Forall_cons in Halloc as [Hroot Halloc].
    apply Forall_cons in Htop as [Hroottop Htop].
    rewrite deref_snoc. simpl. rewrite deref_app_l by done.
    fold (key_at (store self) root).
    assert (key ≠ key_at (store self) root) as Hne.
    { intros ->. destruct Hroottop as [a Ha]. congruence. }
    rewrite decide_True by done.
    destruct Hroottop as [a Ha]. rewrite Ha. simpl.
    eexists. split; [done|]. split_and!; try done.
    eapply step_evicted; try done.
    simpl. by rewrite insert_insert_eq.
  - rewrite deref_snoc. simpl. rewrite decide_False by (intros Hne; by apply Hne).
    simpl. eexists. split; [done|]. split_and!; try done.
    eapply step_bounced; try done. right. by exists root, rest.
Qed.

Lemma update_step self key increment :
  wf self →
  ∃ counted estimate self',
    update_rows hash (w self) (hash_functions self) 0 key increment (count self) = Ok counted
    ∧ get hash (with_count self counted) key = Ok estimate
    ∧ update hash self key increment = Ok self'
    ∧ wf (with_count self counted) ∧ wf self'
    ∧ count self' = counted ∧ hash_functions self' = hash_functions self
    ∧ w self' = w self ∧ d self' = d self ∧ k self' = k self
    ∧ heap_step (with_count self counted) key estimate self'.
Proof.
  intros Hwf.
  destruct (update_rows_spec hash (w self) (wf_width _ Hwf) (hash_functions self) 0
              key increment (count self))
    as (counted & Hrows & Hlen & Hshape & Hint & _).
  { apply Hwf. } { rewrite (wf_rows _ Hwf). simpl. lia. }
  assert (wf (with_count self counted)) as Hwf1.
  { apply with_count_wf; [done | done | by rewrite Hlen, (wf_rows _ Hwf) | apply Hint, Hwf]. }
  destruct (get_succeeds hash _ key Hwf1) as (estimate & Hget & _).
  destruct (update_heap_step _ key estimate Hwf1 Hget)
    as (self' & Hheap & Hcount & Hhfs & Hw & Hd & Hk & Hstep).
  exists counted, estimate, self'. split_and!; try done.
  - unfold update. rewrite Hrows. done.
  - destruct (update_heap_wf hash _ key Hwf1) as (s & Hs & Hwfs & _).
    rewrite Hheap in Hs. by injection Hs as <-.
Qed.
End branches.

(** ** The candidate structures *)

Lemma heap_le_top self :
  wf self → (length (heap self) ≤ size (top_k self))%nat.
Proof.
  intros Hwf. pose proof (wf_heap_keys _ Hwf) as Hnodup.
  pose proof (wf_heap_top _ Hwf) as Htop.
  rewrite <- (length_fmap (key_at (store self))).
  rewrite <- (size_list_to_set (C := gset string)) by done.
  rewrite <- size_dom. apply subseteq_size.
  intros key (x & -> & Hx)%elem_of_list_to_set%list_elem_of_fmap.
  rewrite Forall_forall in Htop. by apply elem_of_dom, Htop.
Qed.


Section candidates.
Variable hash : string → Z.

Lemma heap_step_cand_ok self key estimate self' :
  wf self → cand_ok self → k self' = k self →
  heap_step self key estimate self' → cand_ok self'.
Proof.
  intros Hwf [Hpairs Hsize] Hk Hstep.
  destruct Hstep as [_ -> |p _ Hkey Hst Hheap Htop|_ Hkey Hroom Hst Hheap Htop
                    |_ Hkey _ _ Hst Hheap Htop|root rest _ Hkey _ Hroot _ _ _ Hst Hheap Htop].
  - by split.
  - split.
    + intros key' p' Hp'. rewrite Htop in Hp'. rewrite Hst.
      destruct (Hpairs key' p' Hp') as [e He].
      destruct (decide (p' = p)) as [->|Hne].
      * destruct (Hpairs key p Hkey) as [e' He'].
        rewrite list_lookup_insert_eq by (by eapply lookup_lt_Some).
        exists estimate. unfold key_at, deref. rewrite He'. simpl.
        rewrite He in He'. by injection He' as _ ->.
      * exists e. by rewrite list_lookup_insert_ne.
    + rewrite Hheap, Hk. by rewrite heapify_perm.
  - split.
    + intros key' p' Hp'. rewrite Htop in Hp'. rewrite Hst.
      destruct (decide (key' = key)) as [->|Hne].
      * rewrite lookup_insert_eq in Hp'. injection Hp' as <-. exists estimate.
        replace (S (length (store self))) with (length (store self ++ [(estimate, key)]))
          by (rewrite length_app; simpl; lia).
        by rewrite list_lookup_middle.
      * rewrite lookup_insert_ne in Hp' by done.
        destruct (Hpairs key' p' Hp') as [e He]. exists e.
        rewrite <- app_assoc. by apply lookup_app_l_Some.
    + rewrite Hheap, Hk. rewrite heappush_perm. simpl.
      pose proof (heap_le_top self Hwf). lia.
  - split.
    + intros key' p' Hp'. rewrite Htop in Hp'. rewrite Hst.
      destruct (decide (key' = key)) as [->|Hne].
      * rewrite lookup_insert_eq in Hp'. injection Hp' as <-. exists estimate.
        by rewrite list_lookup_middle.
      * rewrite lookup_insert_ne in Hp' by done.
        destruct (Hpairs key' p' Hp') as [e He]. exists e.
        by apply lookup_app_l_Some.
    + by rewrite Hheap, Hk.
  - split.
    + intros key' p' Hp'. rewrite Htop in Hp'. rewrite Hst.
      destruct (decide (key' = key)) as [->|Hne].
      * rewrite lookup_insert_eq in Hp'. injection Hp' as <-. exists estimate.
        by rewrite list_lookup_middle.
      * rewrite lookup_insert_ne in Hp' by done.
        apply lookup_delete_Some in Hp' as [_ Hp'].
        destruct (Hpairs key' p' Hp') as [e He]. exists e.
        by apply lookup_app_l_Some.
    + rewrite Hheap, Hk. rewrite siftup_perm. by rewrite Hroot in Hsize.
Qed.

Lemma update_all_cand_ok calls : ∀ self self',
  wf self → cand_ok self →
  update_all hash self calls = Ok self' → wf self' ∧ cand_ok self'.
Proof.
  induction calls as [|[key increment] calls IH]; intros self self' Hwf Hcand; simpl.
  - by intros [= <-].
  - destruct (update_step hash self key increment Hwf)
      as (counted & estimate & self1 & _ & _ & -> & Hwfc & Hwf1 & _ & _ & _ & _ & Hk & Hstep).
    simpl. apply IH; [done|].
    eapply heap_step_cand_ok; [exact Hwfc | | done | exact Hstep].
    destruct Hcand. by split.
Qed.

Lemma reachable_cand_ok ceil_exp1_over ceil_log_inv draws delta epsilon k0 self0 calls self :
  __init__ ceil_exp1_over ceil_log_inv draws delta epsilon k0 = Ok self0 →
  1 ≤ w self0 →
  update_all hash self0 calls = Ok self →
  wf self ∧ cand_ok self.
Proof.
  intros Hinit Hw Hrun. pose proof (init_wf _ _ _ _ _ _ _ Hinit Hw) as Hwf.
  eapply update_all_cand_ok; [exact Hwf | | exact Hrun].
  apply init_Ok in Hinit as (-> & _ & _ & Hk). split; simpl.
  - intros key p Hp. by rewrite lookup_empty in Hp.
  - lia.
Qed.
End candidates.

(** ** More properties of the sketch *)

(** The state that a list of calls leaves the sample sketch in. *)
Ltac run_sample calls name :=
  let r := eval vm_compute in
    (update_all sample_hash (fresh 6 1 1 [__generate_hash_function sample_draws 0]) calls) in
  match r with Ok ?s => pose (name := s) end.

Lemma get_after_update hash self self' counted key :
  count self' = counted → hash_functions self' = hash_functions self → w self' = w self →
  get hash self' key = get hash (with_count self counted) key.
Proof. intros Hc Hh Hw. unfold get. simpl. by rewrite Hc, Hh, Hw. Qed.

(** X1. In every state reached from a valid construction the heap holds at
    most k entries and no more entries than the dictionary has keys; the
    keys of its entries are pairwise different, and each of them is a key
    of the dictionary. *)
Theorem heap_within_k hash ceil_exp1_over ceil_log_inv draws delta epsilon k0 self0 calls self :
  __init__ ceil_exp1_over ceil_log_inv draws delta epsilon k0 = Ok self0 →
  1 ≤ w self0 →
  update_all hash self0 calls = Ok self →
  Z.of_nat (length (heap self)) ≤ k self
  ∧ (length (heap self) ≤ size (top_k self))%nat
  ∧ NoDup (key_at (store self) <$> heap self)
  ∧ ∀ p, p ∈ heap self →
      ∃ estimate key q, store self !! p = Some (estimate, key)
                        ∧ top_k self !! key = Some q.
Proof.
  intros Hinit Hw Hrun.
  destruct (reachable_cand_ok hash _ _ _ _ _ _ _ _ _ Hinit Hw Hrun) as [Hwf Hcand].
  split_and!.
  - apply Hcand.
  - by apply heap_le_top.
  - apply Hwf.
  - intros p Hp.
    pose proof (wf_heap_alloc _ Hwf) as Halloc. pose proof (wf_heap_top _ Hwf) as Htop.
    rewrite Forall_forall in Halloc, Htop.
    destruct (lookup_lt_is_Some_2 _ _ (Halloc p Hp)) as [[e key] He].
    destruct (Htop p Hp) as [q Hq].
    unfold key_at, deref in Hq. unfold entry in *. rewrite He in Hq.
    by exists e, key, q.
Qed.

Lemma heap_within_k_witness :
  ∃ self,
    update_all sample_hash (fresh 6 1 1 [__generate_hash_function sample_draws 0])
      [("b", 1); ("a", 1); ("c", 4)]%string = Ok self
    ∧ Z.of_nat (length (heap self)) ≤ 1
    ∧ NoDup (key_at (store self) <$> heap self).
Proof.
  run_sample [("b", 1); ("a", 1); ("c", 4)]%string self. exists self.
  destruct (heap_within_k sample_hash sample_width sample_depth sample_draws (1 # 2) (1 # 2) 1
              (fresh 6 1 1 [__generate_hash_function sample_draws 0])
              [("b", 1); ("a", 1); ("c", 4)]%string self)
    as (Hk & _ & Hnodup & _);
    [vm_compute; reflexivity | simpl; lia | vm_compute; reflexivity |].
  split_and!; [vm_compute; reflexivity | exact Hk | exact Hnodup].
Defined.





Lemma init_rows ceil_exp1_over ceil_log_inv draws delta epsilon k0 self :
  __init__ ceil_exp1_over ceil_log_inv draws delta epsilon k0 = Ok self →
  1 ≤ d self → hash_functions self ≠ [].
Proof.
  intros (-> & _)%init_Ok Hd. simpl in *.
  destruct (Z.to_nat (ceil_log_inv delta)) eqn:Hn; [lia | done].
Qed.

Lemma exact_cell_separated hash self_w f calls key :
  (∀ call, call ∈ calls → call.1 ≠ key →
     column_of hash self_w f call.1 ≠ column_of hash self_w f key) →
  exact_cell hash self_w f calls (column_of hash self_w f key) = true_count calls key.
Proof.
  induction calls as [|[key' increment] calls IH]; intros Hsep; simpl; [done|].
  rewrite IH by (intros call Hin; apply Hsep; by right).
  destruct (decide (key' = key)) as [->|Hne].
  - by rewrite decide_True.
  - rewrite decide_False; [done|]. by apply (Hsep (key', increment)); [left|].
Qed.





(** X6. With positive increments whose total is at most 2^31 - 1 and at
    least one row, the estimate of any key lies between 0 and the total of
    all increments applied so far. *)
Theorem estimate_at_most_total hash ceil_exp1_over ceil_log_inv draws delta epsilon k0
    self calls key :
  __init__ ceil_exp1_over ceil_log_inv draws delta epsilon k0 = Ok self →
  1 ≤ w self → 1 ≤ d self →
  Forall (λ call : string * Z, 0 < call.2) calls →
  total_increment calls ≤ INT32_MAX →
  ∃ self' v,
    update_all hash self calls = Ok self'
    ∧ get hash self' key = Ok v
    ∧ 0 ≤ v ≤ total_increment calls.
Proof.
  intros Hinit Hw Hd Hpos Htotal. pose proof (init_wf _ _ _ _ _ _ _ Hinit Hw) as Hwf.
  pose proof (init_rows _ _ _ _ _ _ _ Hinit Hd) as Hne.
  destruct (update_all_wf hash calls self Hwf)
    as (self' & Hrun & Hwf' & Hhfs & Hw' & _ & _ & Hcell).
  destruct (get_succeeds hash self' key Hwf') as (v & Hv & _ & Hupper & Hlo).
  exists self', v. split_and!; [done | done | |].
  all: assert (∀ i g c, hash_functions self !! i = Some g →
            cell (count self') i c = exact_cell hash (w self) g calls c) as Hexact
    by (intros i g c Hg; rewrite (Hcell i g c Hg);
        assert (cell (count self) i c = 0) as ->
          by (apply init_Ok in Hinit as (-> & _); apply cell_fresh);
        pose proof (exact_cell_bounds hash (w self) g calls c Hpos);
        apply int32_id; unfold is_int32, INT32_MIN, INT32_MAX in *; lia).
  - apply Hlo; [done|]. intros i f Hf. rewrite Hhfs in Hf. rewrite (Hexact i f _ Hf).
    apply (exact_cell_bounds hash (w self) f calls _ Hpos).
  - destruct (hash_functions self) as [|f0 hfs] eqn:Hrows; [done|].
    rewrite Hhfs in Hupper. specialize (Hupper 0%nat f0 eq_refl).
    rewrite (Hexact 0%nat f0 _ eq_refl) in Hupper.
    pose proof (exact_cell_bounds hash (w self) f0 calls
                  (column_of hash (w self') f0 key) Hpos). lia.
Qed.

Lemma estimate_at_most_total_witness :
  ∃ self' v,
    update_all sample_hash (fresh 6 1 1 [__generate_hash_function sample_draws 0])
      [("a", 2); ("b", 1); ("a", 3)]%string = Ok self'
    ∧ get sample_hash self' "b"%string = Ok v ∧ 0 ≤ v ≤ 6.
Proof.
  destruct (estimate_at_most_total sample_hash sample_width sample_depth sample_draws
              (1 # 2) (1 # 2) 1 (fresh 6 1 1 [__generate_hash_function sample_draws 0])
              [("a", 2); ("b", 1); ("a", 3)]%string "b"%string)
    as (self' & v & Hrun & Hv & Hbound).
  - vm_compute; reflexivity.
  - simpl; lia.
  - simpl; lia.
  - repeat constructor.
  - vm_compute. discriminate.
  - exists self', v. split_and!; [exact Hrun | exact Hv | apply Hbound | apply Hbound].
Defined.

(** X7. With positive increments whose total is at most 2^31 - 1, the
    estimate of a key is exactly its true count as soon as one row gives
    the key a column that no other key of the stream falls into. *)
Theorem estimate_exact_when_separated hash ceil_exp1_over ceil_log_inv draws delta epsilon k0
    self calls key r f :
  __init__ ceil_exp1_over ceil_log_inv draws delta epsilon k0 = Ok self →
  1 ≤ w self →
  Forall (λ call : string * Z, 0 < call.2) calls →
  total_increment calls ≤ INT32_MAX →
  hash_functions self !! r = Some f →
  (∀ call, call ∈ calls → call.1 ≠ key →
     column_of hash (w self) f call.1 ≠ column_of hash (w self) f key) →
  ∃ self',
    update_all hash self calls = Ok self'
    ∧ get hash self' key = Ok (true_count calls key).
Proof.
  intros Hinit Hw Hpos Htotal Hf Hsep.
  pose proof (init_wf _ _ _ _ _ _ _ Hinit Hw) as Hwf.
  destruct (update_all_wf hash calls self Hwf)
    as (self' & Hrun & Hwf' & Hhfs & Hw' & _ & _ & Hcell).
  exists self'. split; [done|].
  destruct (get_succeeds hash self' key Hwf') as (v & Hv & _ & Hupper & Hlo).
  rewrite Hv. f_equal.
  assert (∀ i g, hash_functions self !! i = Some g →
            cell (count self') i (column_of hash (w self) g key)
            = exact_cell hash (w self) g calls (column_of hash (w self) g key)) as Hexact.
  { intros i g Hg. rewrite (Hcell i g _ Hg).
    assert (cell (count self) i (column_of hash (w self) g key) = 0) as ->.
    { apply init_Ok in Hinit as (-> & _). apply cell_fresh. }
    pose proof (exact_cell_bounds hash (w self) g calls (column_of hash (w self) g key) Hpos).
    apply int32_id. unfold is_int32, INT32_MIN, INT32_MAX in *. lia. }
  pose proof (true_count_le_total calls key Hpos) as Hle.
  apply Z.le_antisymm.
  2: { apply Hlo; [unfold INT32_MAX, maxsize in *; lia|].
       intros i g Hg. rewrite Hhfs in Hg. rewrite Hw', (Hexact i g Hg).
       by apply true_count_le_exact. }
  rewrite Hhfs in Hupper. specialize (Hupper r f Hf).
  rewrite Hw', (Hexact r f Hf) in Hupper.
  by rewrite exact_cell_separated in Hupper.
Qed.

Lemma estimate_exact_when_separated_witness :
  ∃ self',
    update_all sample_hash (fresh 6 1 1 [__generate_hash_function sample_draws 0])
      [("a", 2); ("b", 1); ("a", 3)]%string = Ok self'
    ∧ get sample_hash self' "a"%string = Ok 5.
Proof.
  destruct (estimate_exact_when_separated sample_hash sample_width sample_depth sample_draws
              (1 # 2) (1 # 2) 1 (fresh 6 1 1 [__generate_hash_function sample_draws 0])
              [("a", 2); ("b", 1); ("a", 3)]%string "a"%string 0%nat
              (__generate_hash_function sample_draws 0))
    as (self' & Hrun & Hget).
  - vm_compute; reflexivity.
  - simpl; lia.
  - repeat constructor.
  - vm_compute. discriminate.
  - reflexivity.
  - intros call Hin Hne.
    repeat (apply elem_of_cons in Hin as [->|Hin]; [try done; vm_compute; discriminate|]).
    by apply elem_of_nil in Hin.
  - exists self'. split; [exact Hrun | exact Hget].
Defined.

(** ** The order on pairs [[estimate, key]] *)

Lemma ascii_compare_trans a b c :
  Ascii.compare a b = Lt → Ascii.compare b c = Lt → Ascii.compare a c = Lt.
Proof.
  unfold Ascii.compare. rewrite !N.compare_lt_iff. lia.
Qed.

Lemma string_compare_trans s1 : ∀ s2 s3,
  String.compare s1 s2 = Lt → String.compare s2 s3 = Lt → String.compare s1 s3 = Lt.
Proof.
  induction s1 as [|a s1 IH]; intros [|b s2] [|c s3]; simpl; try done.
  destruct (Ascii.compare a b) eqn:Hab; try done;
    destruct (Ascii.compare b c) eqn:Hbc; try done; intros H12 H23.
  - apply Ascii.compare_eq_iff in Hab as ->. apply Ascii.compare_eq_iff in Hbc as ->.
    assert (Ascii.compare c c = Eq) as ->
      by (unfold Ascii.compare; apply N.compare_refl).
    by eapply IH.
  - apply Ascii.compare_eq_iff in Hab as ->. by rewrite Hbc.
  - apply Ascii.compare_eq_iff in Hbc as ->. by rewrite Hab.
  - by rewrite (ascii_compare_trans a b c).
Qed.

Lemma string_compare_refl s : String.compare s s = Eq.
Proof.
  induction s as [|a s IH]; simpl; [done|].
  assert (Ascii.compare a a = Eq) as -> by (unfold Ascii.compare; apply N.compare_refl).
  done.
Qed.

Lemma entry_lt_spec (x y : entry) :
  entry_lt x y = true ↔ x.1 < y.1 ∨ (x.1 = y.1 ∧ String.compare x.2 y.2 = Lt).
Proof.
  unfold entry_lt. destruct (decide (x.1 = y.1)) as [Heq|Hne].
  - destruct (decide (x.2 = y.2)) as [Hk|Hk].
    + rewrite Hk, string_compare_refl. split; [done|]. intros [?|[_ ?]]; [lia | done].
    + unfold String.ltb. destruct (String.compare x.2 y.2); split; try done;
        try (intros [?|[_ ?]]; [lia | done]); intros _; by right.
  - rewrite bool_decide_eq_true. split; [by left|]. intros [?|[? _]]; [done | lia].
Qed.

Lemma entry_lt_asym (x y : entry) : entry_lt x y = true → entry_lt y x = false.
Proof.
  intros Hxy%entry_lt_spec. apply not_true_iff_false. intros Hyx%entry_lt_spec.
  destruct Hxy as [?|[? Hk]], Hyx as [?|[? Hk']]; try lia.
  rewrite String.compare_antisym, Hk in Hk'. done.
Qed.

Lemma entry_le_trans (x y z : entry) :
  entry_lt y x = false → entry_lt z y = false → entry_lt z x = false.
Proof.
  intros Hxy Hyz. apply not_true_iff_false. intros Hzx%entry_lt_spec.
  apply not_true_iff_false in Hxy, Hyz. rewrite entry_lt_spec in Hxy, Hyz.
  destruct (Z.lt_trichotomy x.1 y.1) as [?|[Hxy1|?]]; [|  |apply Hxy; by left].
  - destruct Hzx as [?|[? _]]; apply Hyz; left; lia.
  - destruct (Z.lt_trichotomy y.1 z.1) as [?|[Hyz1|?]]; [| |apply Hyz; by left].
    + destruct Hzx as [?|[? _]]; lia.
    + destruct Hzx as [?|[_ Hk]]; [lia|].
      destruct (String.compare y.2 x.2) eqn:Hc1; [| apply Hxy; by right; split |].
      * apply String.compare_eq_iff in Hc1. rewrite <- Hc1 in Hk.
        apply Hyz. right. by split.
      * destruct (String.compare z.2 y.2) eqn:Hc2; [| apply Hyz; by right; split |].
        -- apply String.compare_eq_iff in Hc2. rewrite Hc2 in Hk. congruence.
        -- rewrite String.compare_antisym in Hc1, Hc2.
           apply (f_equal CompOpp) in Hc1, Hc2. rewrite CompOpp_involutive in Hc1, Hc2.
           simpl in *. pose proof (string_compare_trans _ _ _ Hc1 Hc2) as Hc3.
           rewrite String.compare_antisym, Hc3 in Hk. done.
Qed.

#[global] Instance entry_le_total : Total entry_le.
Proof.
  intros x y. unfold entry_le.
  destruct (entry_lt y x) eqn:Hyx; [right; by apply entry_lt_asym | by left].
Qed.

#[global] Instance entry_le_transitive : Transitive entry_le.
Proof. intros x y z Hxy Hyz. unfold entry_le in *. by eapply entry_le_trans. Qed.

(** ** The listing functions *)

Lemma listing_loop_take {A} (format : A → string) items top_n : ∀ counter results,
  listing_loop format items top_n counter results
  = results ++ (format <$> take (Z.to_nat (top_n - counter)) items).
Proof.
  induction items as [|item items IH]; intros counter results; simpl.
  - by rewrite take_nil, app_nil_r.
  - destruct (decide (counter >= top_n)) as [Hstop|Hgo].
    + replace (Z.to_nat (top_n - counter)) with 0%nat by lia. by rewrite app_nil_r.
    + rewrite IH. replace (Z.to_nat (top_n - counter))
        with (S (Z.to_nat (top_n - (counter + 1)))) by lia.
      simpl. by rewrite <- app_assoc.
Qed.

Lemma occurrences_app users users' user :
  occurrences (users ++ users') user = occurrences users user + occurrences users' user.
Proof. induction users as [|u users IH]; simpl; [done|]. rewrite IH. lia. Qed.

Lemma occurrences_nonneg users user : 0 ≤ occurrences users user.
Proof. induction users as [|u users IH]; simpl; [done|]. case_decide; lia. Qed.

Lemma occurrences_pos users user : user ∈ users ↔ 0 < occurrences users user.
Proof.
  induction users as [|u users IH]; simpl.
  - split; [by intros ?%elem_of_nil | lia].
  - pose proof (occurrences_nonneg users user). rewrite elem_of_cons, IH.
    destruct (decide (u = user)) as [->|Hne]; [split; [lia | by left]|].
    split; [intros [?|?]; [congruence | lia] | intros ?; right; lia].
Qed.

Lemma count_user_keys counts user :
  (user ∈ counts.*1 → (count_user counts user).*1 = counts.*1)
  ∧ (user ∉ counts.*1 → (count_user counts user).*1 = counts.*1 ++ [user]).
Proof.
  induction counts as [|[u c] counts [IHin IHout]].
  - split; [by intros ?%elem_of_nil | done].
  - cbn [count_user]. destruct (decide (u = user)) as [->|Hne].
    + split; [done|]. intros Hout. exfalso. apply Hout. rewrite fmap_cons. by left.
    + rewrite !fmap_cons. simpl. split.
      * intros [?|Hin]%elem_of_cons; [congruence|]. by rewrite IHin.
      * intros Hout. rewrite IHout; [done|]. intros Hin. apply Hout. by right.
Qed.

Lemma count_user_elem counts user user' c' :
  NoDup counts.*1 →
  (user', c') ∈ count_user counts user ↔
    (user' ≠ user ∧ (user', c') ∈ counts)
    ∨ (user' = user ∧ ((∃ c, (user, c) ∈ counts ∧ c' = c + 1)
                       ∨ ((user ∉ counts.*1) ∧ c' = 1))).
Proof.
  induction counts as [|[u c] counts IH]; intros Hnodup.
  - cbn [count_user]. rewrite list_elem_of_singleton. split.
    + intros [= -> ->]. right. split; [done|]. right. split; [|done]. by intros ?%elem_of_nil.
    + intros [[_ ?%elem_of_nil]|[-> [(c & ?%elem_of_nil & _)|[_ ->]]]]; done.
  - rewrite fmap_cons in Hnodup. apply NoDup_cons in Hnodup as [Hfresh Hnodup].
    assert (∀ c0, (u, c0) ∉ counts) as Hfresh'.
    { intros c0 Hin. apply Hfresh. apply list_elem_of_fmap. by exists (u, c0). }
    specialize (IH Hnodup). cbn [count_user].
    destruct (decide (u = user)) as [->|Hne].
    + rewrite fmap_cons. setoid_rewrite elem_of_cons. split.
      * intros [[= -> ->]|Hin].
        -- right. split; [done|]. left. exists c. split; [by left | done].
        -- left. split; [|by right]. intros ->. by eapply Hfresh'.
      * intros [[Hne [[= ? ?]|Hin]]|[-> [(c0 & [[= ->]|Hin] & ->)|[Hout _]]]].
        -- done.
        -- by right.
        -- by left.
        -- exfalso. by eapply Hfresh'.
        -- exfalso. apply Hout. by left.
    + rewrite fmap_cons. setoid_rewrite elem_of_cons. rewrite IH. split.
      * intros [[= -> ->]|[[? ?]|[-> [(c0 & Hin & ->)|[Hout ->]]]]].
        -- left. split; [done | by left].
        -- left. split; [done | by right].
        -- right. split; [done|]. left. exists c0. split; [by right | done].
        -- right. split; [done|]. right. split; [|done].
           by intros [?|?].
      * intros [[? [[= -> ->]|?]]|[-> [(c0 & [[= ? ?]|Hin] & ->)|[Hout ->]]]].
        -- by left.
        -- right. left. done.
        -- done.
        -- right. right. split; [done|]. left. by exists c0.
        -- right. right. split; [done|]. right. split; [|done].
           intros Hin. apply Hout. by right.
Qed.

Lemma count_user_counted counts users user :
  counted counts users → counted (count_user counts user) (users ++ [user]).
Proof.
  intros [Hnodup Hspec]. split.
  - destruct (count_user_keys counts user) as [Hin Hout].
    destruct (decide (user ∈ counts.*1)) as [Hyes|Hno]; [by rewrite Hin|].
    rewrite Hout by done.
    apply NoDup_app. split_and!; [done | | apply NoDup_singleton].
    intros x Hx ->%list_elem_of_singleton. done.
  - intros user' c'. rewrite count_user_elem by done.
    rewrite occurrences_app, elem_of_app, list_elem_of_singleton. simpl.
    rewrite Z.add_0_r.
    assert (user ∉ counts.*1 ↔ user ∉ users) as Hkeys.
    { split; intros Hout Hin; apply Hout.
      - apply list_elem_of_fmap. exists (user, occurrences users user).
        split; [done|]. by apply Hspec.
      - apply list_elem_of_fmap in Hin as ([u c] & -> & Hin). by apply Hspec in Hin as [? _]. }
    rewrite Hkeys. setoid_rewrite Hspec.
    pose proof (occurrences_pos users user') as Hpos.
    pose proof (occurrences_nonneg users user') as Hnn.
    destruct (decide (user = user')) as [->|Hne].
    + split.
      * intros [[? _]|[_ [(c & [? ->] & ->)|[Hout ->]]]]; [done | split; [by right | lia] |].
        split; [by right|].
        assert (¬ 0 < occurrences users user') by (intros ?; by apply Hout, Hpos). lia.
      * intros [_ ->]. right. split; [done|].
        destruct (decide (user' ∈ users)) as [Hin|Hout].
        -- left. exists (occurrences users user'). split; [done | lia].
        -- right. split; [done|].
           assert (¬ 0 < occurrences users user') by (intros ?; by apply Hout, Hpos). lia.
    + split.
      * intros [[_ [? ->]]|[? _]]; [|done]. split; [by left | lia].
      * intros [[?|?] ->]; [|done]. left. split; [done|]. split; [done | lia].
Qed.

Lemma exact_counts_counted f : counted (exact_counts f) (rstrip_newline <$> f).
Proof.
  unfold exact_counts.
  assert (∀ counts users, counted counts users →
            counted (foldl (λ counts user, count_user counts (rstrip_newline user)) counts f)
                    (users ++ (rstrip_newline <$> f))) as Hgen.
  { induction f as [|line f IH]; intros counts users Hc; simpl.
    - by rewrite app_nil_r.
    - rewrite cons_middle, app_assoc. apply IH. by apply count_user_counted. }
  apply (Hgen [] []). split; [constructor|].
  intros user c. split; [by intros ?%elem_of_nil | by intros [?%elem_of_nil _]].
Qed.

(** [sorted] by count: a rearrangement in ascending order of the counts. *)
Lemma insert_by_count_perm item sorted : insert_by_count item sorted ≡ₚ item :: sorted.
Proof.
  induction sorted as [|item' sorted IH]; simpl; [done|].
  case_decide; [done|]. rewrite IH. apply Permutation_swap.
Qed.

Lemma sorted_by_count_perm items : sorted_by_count items ≡ₚ items.
Proof.
  induction items as [|item items IH]; simpl; [done|].
  by rewrite insert_by_count_perm, IH.
Qed.

Lemma insert_by_count_sorted item sorted :
  StronglySorted (λ x y : string * Z, x.2 ≤ y.2) sorted →
  StronglySorted (λ x y : string * Z, x.2 ≤ y.2) (insert_by_count item sorted).
Proof.
  induction 1 as [|item' sorted Hsorted IH Hall]; simpl.
  - repeat constructor.
  - case_decide as Hle.
    + constructor; [by constructor|]. constructor; [done|].
      eapply Forall_impl; [exact Hall|]. simpl. intros. lia.
    + constructor; [done|]. rewrite insert_by_count_perm.
      constructor; [lia | done].
Qed.

Lemma sorted_by_count_sorted items :
  StronglySorted (λ x y : string * Z, x.2 ≤ y.2) (sorted_by_count items).
Proof.
  induction items as [|item items IH]; simpl; [constructor|].
  by apply insert_by_count_sorted.
Qed.

Lemma StronglySorted_reverse {A} (R : A → A → Prop) l :
  StronglySorted R l → StronglySorted (flip R) (reverse l).
Proof.
  induction 1 as [|x l Hl IH Hall]; [constructor|].
  rewrite reverse_cons. apply StronglySorted_app_2; [| done | repeat constructor].
  intros y z Hy ->%list_elem_of_singleton. rewrite elem_of_reverse in Hy.
  rewrite Forall_forall in Hall. unfold flip. by apply Hall.
Qed.

Lemma StronglySorted_take_drop {A} (R : A → A → Prop) l n x y :
  StronglySorted R l → x ∈ take n l → y ∈ drop n l → R x y.
Proof.
  intros Hsorted Hx Hy. rewrite <- (take_drop n l) in Hsorted.
  by eapply StronglySorted_app_1_elem_of.
Qed.

Lemma exact_top_users_lines f top_n :
  exact_top_users f top_n = format_user <$> exact_top f top_n.
Proof.
  unfold exact_top_users, exact_top. rewrite listing_loop_take. simpl.
  by rewrite Z.sub_0_r.
Qed.

Lemma exact_counts_keys f :
  (exact_counts f).*1 ≡ₚ remove_dups (rstrip_newline <$> f).
Proof.
  destruct (exact_counts_counted f) as [Hnodup Hspec].
  apply NoDup_Permutation; [done | apply NoDup_remove_dups |].
  intros user. rewrite elem_of_remove_dups, list_elem_of_fmap. split.
  - intros ([u c] & -> & Hin). by apply Hspec in Hin as [? _].
  - intros Hin. exists (user, occurrences (rstrip_newline <$> f) user).
    split; [done|]. by apply Hspec.
Qed.

(** X8. [exact_top_users] reports users of the input with their exact
    numbers of lines, each user at most once, and as many users as [top_n]
    allows: all of them when there are fewer. *)
Theorem exact_top_users_counts f top_n :
  let users := rstrip_newline <$> f in
  exact_top_users f top_n = format_user <$> exact_top f top_n
  ∧ length (exact_top_users f top_n)
    = (Z.to_nat top_n `min` length (remove_dups users))%nat
  ∧ NoDup (exact_top f top_n).*1
  ∧ ∀ user c, (user, c) ∈ exact_top f top_n →
      user ∈ users ∧ c = occurrences users user ∧ 0 < c.
Proof.
  intros users. destruct (exact_counts_counted f) as [Hnodup Hspec].
  pose proof (sorted_by_count_perm (exact_counts f)) as Hperm.
  split_and!.
  - apply exact_top_users_lines.
  - rewrite exact_top_users_lines, length_fmap. unfold exact_top.
    rewrite length_take, length_reverse, Hperm.
    by rewrite <- (length_fmap fst), exact_counts_keys.
  - unfold exact_top. rewrite fmap_take.
    eapply sublist_NoDup; [|apply sublist_take].
    by rewrite fmap_reverse, reverse_Permutation, Hperm.
  - intros user c Hin%subseteq_take. unfold exact_top in Hin.
    rewrite elem_of_reverse, Hperm in Hin. apply Hspec in Hin as [Hin ->].
    split_and!; [done | done | by apply occurrences_pos].
Qed.

(** X9. The lines of [exact_top_users] come in non-increasing order of the
    counts, and no user left out has more lines than a user listed. *)
Theorem exact_top_users_ranking f top_n :
  let users := rstrip_newline <$> f in
  StronglySorted (λ x y : string * Z, y.2 ≤ x.2) (exact_top f top_n)
  ∧ ∀ user item, user ∈ users → user ∉ (exact_top f top_n).*1 →
      item ∈ exact_top f top_n → occurrences users user ≤ item.2.
Proof.
  intros users. destruct (exact_counts_counted f) as [Hnodup Hspec].
  pose proof (sorted_by_count_perm (exact_counts f)) as Hperm.
  pose proof (StronglySorted_reverse _ _ (sorted_by_count_sorted (exact_counts f))) as Hsorted.
  split.
  - unfold exact_top.
    rewrite <- (take_drop (Z.to_nat top_n) (reverse _)) in Hsorted.
    by apply StronglySorted_app_1_l in Hsorted.
  - intros user item Hin Hout Hitem.
    assert ((user, occurrences users user) ∈ reverse (sorted_by_count (exact_counts f))) as Hall.
    { rewrite elem_of_reverse, Hperm. by apply Hspec. }
    rewrite <- (take_drop (Z.to_nat top_n) (reverse _)) in Hall.
    apply elem_of_app in Hall as [Htake|Hdrop].
    + exfalso. apply Hout. apply list_elem_of_fmap. by eexists (_, _).
    + by apply (StronglySorted_take_drop _ _ _ _ _ Hsorted Hitem Hdrop).
Qed.

(** X10. On a valid sketch [CM_top_users] raises nothing.  It feeds every
    line to [update] and then lists pairs of the dictionary, largest first:
    as many as [top_n] allows, each a pair that the dictionary holds for its
    own key, and no pair left out is larger than a pair listed. *)
Theorem CM_top_users_lists_candidates hash ceil_exp1_over ceil_log_inv draws delta epsilon k0
    self f top_n :
  __init__ ceil_exp1_over ceil_log_inv draws delta epsilon k0 = Ok self →
  1 ≤ w self →
  ∃ self',
    observe_all hash self (rstrip_newline <$> f) = Ok self'
    ∧ CM_top_users hash f self top_n = Ok (format_value <$> CM_top self' top_n, self')
    ∧ length (CM_top self' top_n) = (Z.to_nat top_n `min` size (top_k self'))%nat
    ∧ StronglySorted (λ x y, entry_lt x y = false) (CM_top self' top_n)
    ∧ (∀ e, e ∈ CM_top self' top_n →
         ∃ p, top_k self' !! e.2 = Some p ∧ store self' !! p = Some e)
    ∧ (∀ key p e, top_k self' !! key = Some p →
         deref (store self') p ∉ CM_top self' top_n → e ∈ CM_top self' top_n →
         entry_lt e (deref (store self') p) = false).
Proof.
  intros Hinit Hw. pose proof (init_wf _ _ _ _ _ _ _ Hinit Hw) as Hwf.
  unfold observe_all.
  destruct (update_all_wf hash ((λ key, (key, 1)) <$> (rstrip_newline <$> f)) self Hwf)
    as (self' & Hrun & _).
  destruct (reachable_cand_ok hash _ _ _ _ _ _ _ _ _ Hinit Hw Hrun) as [Hwf' Hcand].
  exists self'. split; [done|]. unfold CM_top.
  set (values := deref (store self') <$> (map_to_list (top_k self')).*2).
  pose proof (merge_sort_Permutation entry_le values) as Hperm.
  pose proof (StronglySorted_reverse _ _ (StronglySorted_merge_sort entry_le values)) as Hsorted.
  assert (∀ e, e ∈ values ↔ ∃ key p, top_k self' !! key = Some p ∧ store self' !! p = Some e
                                    ∧ e.2 = key) as Hvalues.
  { intros e. unfold values. rewrite list_elem_of_fmap. split.
    - intros (p & -> & ([key p'] & -> & Hin%elem_of_map_to_list)%list_elem_of_fmap).
      simpl. destruct (cand_pairs _ Hcand key p' Hin) as [est He].
      exists key, p'. unfold deref. unfold entry in *. rewrite He. done.
    - intros (key & p & Hkey & He & _). exists p. split.
      + unfold deref. unfold entry in *. by rewrite He.
      + apply list_elem_of_fmap. exists (key, p). split; [done|].
        by apply elem_of_map_to_list. }
  split_and!.
  - unfold CM_top_users, observe_all. rewrite Hrun. simpl.
    rewrite listing_loop_take. simpl. by rewrite Z.sub_0_r.
  - rewrite length_take, length_reverse, Hperm.
    unfold values. by rewrite !length_fmap, length_map_to_list.
  - rewrite <- (take_drop (Z.to_nat top_n) (reverse _)) in Hsorted.
    apply StronglySorted_app_1_l in Hsorted.
    exact Hsorted.
  - intros e Hin%subseteq_take. rewrite elem_of_reverse, Hperm in Hin.
    apply Hvalues in Hin as (key & p & Hkey & He & <-). by exists p.
  - intros key p e Hkey Hout Hin.
    assert (deref (store self') p ∈ reverse (merge_sort entry_le values)) as Hall.
    { rewrite elem_of_reverse, Hperm. apply Hvalues.
      destruct (cand_pairs _ Hcand key p Hkey) as [est He].
      exists key, p. unfold deref. unfold entry in *. by rewrite He. }
    rewrite <- (take_drop (Z.to_nat top_n) (reverse _)) in Hall.
    apply elem_of_app in Hall as [?|Hdrop]; [done|].
    apply (StronglySorted_take_drop _ _ _ _ _ Hsorted Hin Hdrop).
Qed.

Lemma CM_top_users_lists_candidates_witness :
  ∃ self',
    CM_top_users sample_hash ["b"; "a"; "b"]%string
      (fresh 6 1 1 [__generate_hash_function sample_draws 0]) 1
    = Ok (format_value <$> CM_top self' 1, self')
    ∧ length (CM_top self' 1) = (1 `min` size (top_k self'))%nat.
Proof.
  destruct (CM_top_users_lists_candidates sample_hash sample_width sample_depth sample_draws
              (1 # 2) (1 # 2) 1 (fresh 6 1 1 [__generate_hash_function sample_draws 0])
              ["b"; "a"; "b"]%string 1)
    as (self' & _ & Hlines & Hlen & _); [vm_compute; reflexivity | simpl; lia |].
  exists self'. split; [exact Hlines | exact Hlen].
Defined.

(** ** [heapq] keeps the heap order *)

Lemma parent_lt i : (0 < i)%nat → (parent i < i)%nat.
Proof. intros Hi. unfold parent. rewrite Nat.div2_div. apply Nat.Div0.div_lt_upper_bound. lia. Qed.

Lemma parent_left p : parent (2 * p + 1) = p.
Proof.
  unfold parent. replace (2 * p + 1 - 1)%nat with (2 * p)%nat by lia.
  apply Nat.div2_double.
Qed.

Lemma parent_right p : parent (2 * p + 1 + 1) = p.
Proof.
  unfold parent. replace (2 * p + 1 + 1 - 1)%nat with (S (2 * p)) by lia.
  apply Nat.div2_succ_double.
Qed.

Lemma parent_children i :
  (0 < i)%nat → i = (2 * parent i + 1)%nat ∨ i = (2 * parent i + 1 + 1)%nat.
Proof.
  intros Hi. unfold parent. rewrite Nat.div2_div.
  pose proof (Nat.div_mod_eq (i - 1) 2).
  pose proof (Nat.mod_upper_bound (i - 1) 2). lia.
Qed.

Lemma under_le lo pos : under lo pos → (lo ≤ pos)%nat.
Proof.
  induction 1 as [|i Hi _ IH]; [done|]. pose proof (parent_lt i Hi). lia.
Qed.

Lemma under_parent lo pos :
  under lo pos → (lo < pos)%nat → under lo (parent pos) ∧ (lo ≤ parent pos)%nat.
Proof.
  intros Hunder Hlt. destruct Hunder as [|i Hi Hp]; [lia|].
  split; [done | by apply under_le].
Qed.

Lemma under_0 pos : under 0 pos.
Proof.
  induction (lt_wf pos) as [pos _ IH]. destruct pos as [|pos]; [constructor|].
  apply under_child; [lia|]. apply IH. apply parent_lt. lia.
Qed.

Section heap_order.
Context {A : Type} (lt : A → A → bool).
Hypothesis lt_asym : ∀ x y, lt x y = true → lt y x = false.
Hypothesis le_trans : ∀ x y z, lt y x = false → lt z y = false → lt z x = false.

Lemma heap_lt_irrefl x : lt x x = false.
Proof. destruct (lt x x) eqn:H; [by apply lt_asym in H as H'; congruence | done]. Qed.

Lemma ordered_from_weaken lo lo' (heap : list A) :
  (lo ≤ lo')%nat → ordered_from lt lo heap → ordered_from lt lo' heap.
Proof. intros Hle Hord i x y Hi Hp. apply Hord; [done | lia]. Qed.

(** Beyond the middle of the list no position has a child. *)
Lemma ordered_from_leaves lo (heap : list A) :
  (length heap ≤ 2 * lo + 1)%nat → ordered_from lt lo heap.
Proof.
  intros Hlen i x y Hi Hp Hx _. apply lookup_lt_Some in Hx.
  destruct (parent_children i Hi); lia.
Qed.

(** The loop of [_siftdown]: [heap] with [x] at [pos] is in order from [lo]
    on, except perhaps between [pos] and its parent, and the parent of
    [pos] is not larger than the children of [pos]. *)
Lemma siftdown_loop_ordered lo fuel : ∀ (heap : list A) pos x,
  (pos ≤ fuel)%nat → (pos < length heap)%nat → under lo pos →
  (∀ i xi yi, (0 < i)%nat → (lo ≤ parent i)%nat → i ≠ pos →
     <[pos := x]> heap !! i = Some xi → <[pos := x]> heap !! parent i = Some yi →
     lt xi yi = false) →
  ((lo < pos)%nat → ∀ c xc y, (0 < c)%nat → parent c = pos →
     heap !! c = Some xc → heap !! parent pos = Some y → lt xc y = false) →
  ordered_from lt lo (siftdown_loop lt fuel heap lo pos x).
Proof.
  induction fuel as [|fuel IH]; intros heap pos x Hfuel Hpos Hunder Hedges Hgrand.
  { simpl. assert (pos = 0)%nat as -> by lia.
    intros i xi yi Hi Hp. apply Hedges; [done | done | lia]. }
  simpl. destruct (decide (lo < pos)%nat) as [Hlt|Hge].
  2: { assert (pos = lo) as -> by (apply under_le in Hunder; lia).
       intros i xi yi Hi Hp. apply Hedges; [done | done |].
       intros ->. pose proof (parent_lt lo Hi). lia. }
  fold (parent pos). pose proof (parent_lt pos ltac:(lia)) as Hparent.
  destruct (under_parent lo pos Hunder Hlt) as [Hunder' Hlo].
  destruct (lookup_lt_is_Some_2 heap (parent pos) ltac:(lia)) as [y Hy]. rewrite Hy.
  destruct (lt x y) eqn:Hxy.
  2: { intros i xi yi Hi Hp Hxi Hyi. destruct (decide (i = pos)) as [->|Hne].
       - rewrite list_lookup_insert_eq in Hxi by done.
         rewrite list_lookup_insert_ne in Hyi by lia. congruence.
       - by eapply Hedges. }
  apply IH; [lia | rewrite length_insert; lia | done | |].
  - intros i xi yi Hi Hp Hne Hxi Hyi.
    destruct (decide (i = pos)) as [->|Hipos].
    { (* the old parent, now at [pos], under [x] *)
      rewrite list_lookup_insert_ne in Hxi by lia.
      rewrite list_lookup_insert_eq in Hxi by done.
      rewrite list_lookup_insert_eq in Hyi by (rewrite length_insert; lia).
      injection Hxi as <-. injection Hyi as <-. by apply lt_asym. }
    rewrite list_lookup_insert_ne in Hxi by done.
    rewrite list_lookup_insert_ne in Hxi by done.
    destruct (decide (parent i = pos)) as [Hchild|Hnochild].
    { (* a child of [pos] under the old parent *)
      rewrite Hchild in Hyi. rewrite list_lookup_insert_ne in Hyi by lia.
      rewrite list_lookup_insert_eq in Hyi by done. injection Hyi as <-.
      by eapply (Hgrand Hlt i). }
    destruct (decide (parent i = parent pos)) as [Hsib|Hnosib].
    { (* the sibling of [pos] under [x] *)
      rewrite Hsib in Hyi. rewrite list_lookup_insert_eq in Hyi
        by (rewrite length_insert; lia).
      injection Hyi as <-.
      apply (le_trans x y xi); [by apply lt_asym|].
      apply (Hedges i xi y Hi Hp Hipos).
      - by rewrite list_lookup_insert_ne.
      - rewrite Hsib. by rewrite list_lookup_insert_ne by lia. }
    rewrite list_lookup_insert_ne in Hyi by (intros ?; by apply Hnosib).
    rewrite list_lookup_insert_ne in Hyi by (intros ?; by apply Hnochild).
    apply (Hedges i xi yi Hi Hp Hipos).
    + by rewrite list_lookup_insert_ne.
    + rewrite list_lookup_insert_ne; [done|]. intros ?; by apply Hnochild.
  - intros Hlt' c xc g Hc Hcp Hxc Hg.
    rewrite list_lookup_insert_ne in Hg
      by (pose proof (parent_lt (parent pos) ltac:(lia)); lia).
    destruct (under_parent lo (parent pos) Hunder' Hlt') as [_ Hlo'].
    assert (lt y g = false) as Hyg.
    { apply (Hedges (parent pos) y g ltac:(lia) Hlo' ltac:(lia)).
      - by rewrite list_lookup_insert_ne by lia.
      - rewrite list_lookup_insert_ne; [done|].
        pose proof (parent_lt (parent pos) ltac:(lia)). lia. }
    destruct (decide (c = pos)) as [->|Hcpos].
    + rewrite list_lookup_insert_eq in Hxc by done. by injection Hxc as <-.
    + rewrite list_lookup_insert_ne in Hxc by done.
      apply (le_trans g y xc); [done|].
      apply (Hedges c xc y Hc ltac:(lia) Hcpos).
      * by rewrite list_lookup_insert_ne.
      * rewrite Hcp. by rewrite list_lookup_insert_ne by lia.
Qed.

(** The loop of [_siftup]: the hole at [pos] moves down to a leaf; the list
    stays in order from [lo] on, except below [lo] itself while the hole is
    still there, and the hole holds a copy of its parent. *)
Lemma siftup_loop_ordered lo fuel : ∀ (heap : list A) pos heap1 pos1,
  under lo pos → (pos < length heap)%nat → (length heap ≤ fuel + pos)%nat →
  (∀ i x y, (0 < i)%nat → (lo ≤ parent i)%nat → (parent i = pos → (lo < pos)%nat) →
     heap !! i = Some x → heap !! parent i = Some y → lt x y = false) →
  ((lo < pos)%nat → heap !! parent pos = heap !! pos) →
  siftup_loop lt fuel heap pos = (heap1, pos1) →
  under lo pos1 ∧ (length heap1 ≤ 2 * pos1 + 1)%nat ∧
  (∀ i x y, (0 < i)%nat → (lo ≤ parent i)%nat → parent i ≠ pos1 →
     heap1 !! i = Some x → heap1 !! parent i = Some y → lt x y = false).
Proof.
  induction fuel as [|fuel IH]; intros heap pos heap1 pos1 Hunder Hpos Hfuel Hedges Hhole;
    cbn [siftup_loop].
  { lia. }
  destruct (decide _) as [Hchild|Hleaf].
  2: { intros [= <- <-]. split_and!; [done | lia |].
       intros i x y Hi Hp Hne. apply Hedges; [done | done | by intros ?]. }
  pose proof (under_le _ _ Hunder) as Hlo.
  assert (∀ c child, (c = 2 * pos + 1 ∨ c = 2 * pos + 1 + 1)%nat →
    heap !! c = Some child →
    (∀ i xi, (0 < i)%nat → parent i = pos → heap !! i = Some xi → lt xi child = false) →
    siftup_loop lt fuel (<[pos := child]> heap) c = (heap1, pos1) →
    under lo pos1 ∧ (length heap1 ≤ 2 * pos1 + 1)%nat ∧
    (∀ i x y, (0 < i)%nat → (lo ≤ parent i)%nat → parent i ≠ pos1 →
       heap1 !! i = Some x → heap1 !! parent i = Some y → lt x y = false)) as Hgen.
  { intros c child Hc Hlk Hleast Hrec.
    assert (parent c = pos) as Hpc
      by (destruct Hc as [-> | ->]; [apply parent_left | apply parent_right]).
    pose proof (lookup_lt_Some _ _ _ Hlk) as Hclen.
    apply IH in Hrec; [done | | rewrite length_insert; lia | rewrite length_insert; lia | |].
    - apply under_child; [lia | by rewrite Hpc].
    - intros i x y Hi Hp _ Hx Hy.
      destruct (decide (i = pos)) as [->|Hipos].
      + rewrite list_lookup_insert_eq in Hx by done. injection Hx as <-.
        pose proof (parent_lt pos Hi).
        rewrite list_lookup_insert_ne in Hy by lia.
        apply (Hedges c child y); [lia | lia | lia | done |].
        rewrite Hpc, <- Hhole by lia. done.
      + rewrite list_lookup_insert_ne in Hx by done.
        destruct (decide (parent i = pos)) as [Hip|Hip].
        * rewrite Hip, list_lookup_insert_eq in Hy by done. injection Hy as <-.
          by apply (Hleast i).
        * rewrite list_lookup_insert_ne in Hy by (intros ?; by apply Hip).
          apply (Hedges i x y); [done | done | by intros ? | done | done].
    - intros _. rewrite Hpc, list_lookup_insert_eq by done.
      rewrite list_lookup_insert_ne by lia. done. }
  destruct (lookup_lt_is_Some_2 heap (2 * pos + 1) Hchild) as [l Hl].
  destruct (bool_decide (2 * pos + 1 + 1 < length heap)%nat) eqn:Hb; cbn [andb].
  - apply bool_decide_eq_true in Hb.
    destruct (lookup_lt_is_Some_2 heap (2 * pos + 1 + 1) Hb) as [r Hr].
    unfold lt_at. rewrite Hl, Hr. destruct (lt l r) eqn:Hlr; cbn [negb].
    + rewrite Hl. apply Hgen; [by left | done |].
      intros i xi Hi Hip Hxi. destruct (parent_children i Hi) as [Heq|Heq];
        rewrite Hip in Heq; subst i.
      * replace xi with l by congruence. apply heap_lt_irrefl.
      * replace xi with r by congruence. by apply lt_asym.
    + rewrite Hr. apply Hgen; [by right | done |].
      intros i xi Hi Hip Hxi. destruct (parent_children i Hi) as [Heq|Heq];
        rewrite Hip in Heq; subst i.
      * replace xi with l by congruence. done.
      * replace xi with r by congruence. apply heap_lt_irrefl.
  - apply bool_decide_eq_false in Hb. rewrite Hl. apply Hgen; [by left | done |].
    intros i xi Hi Hip Hxi. destruct (parent_children i Hi) as [Heq|Heq];
      rewrite Hip in Heq; subst i.
    + replace xi with l by congruence. apply heap_lt_irrefl.
    + apply lookup_lt_Some in Hxi. lia.
Qed.

(** [_siftup(heap, pos)] puts the subtree at [pos] in order when the
    subtrees of its children are. *)
Lemma siftup_ordered (heap : list A) lo :
  ordered_from lt (S lo) heap → ordered_from lt lo (_siftup lt heap lo).
Proof.
  intros Hord. unfold _siftup. destruct (heap !! lo) as [newitem|] eqn:Hnew.
  2: { apply lookup_ge_None in Hnew. apply ordered_from_leaves. lia. }
  pose proof (lookup_lt_Some _ _ _ Hnew) as Hlo.
  destruct (siftup_loop lt (length heap) heap lo) as [heap1 pos1] eqn:Hloop.
  pose proof (siftup_loop_spec lt _ _ _ _ _ newitem Hlo Hloop) as [Hpos1 _].
  apply siftup_loop_ordered with (lo := lo) in Hloop as (Hunder & Hleaf & Hedges);
    [| constructor | done | lia | | intros; lia].
  2: { intros i x y Hi Hp Hne. apply Hord; [done|].
       destruct (decide (parent i = lo)) as [Heq|]; [apply Hne in Heq|]; lia. }
  unfold _siftdown. rewrite list_lookup_insert_eq by lia.
  apply siftdown_loop_ordered; [done | rewrite length_insert; lia | done | |].
  - rewrite list_insert_insert_eq. intros i x y Hi Hp Hne Hx Hy.
    rewrite list_lookup_insert_ne in Hx by done.
    destruct (decide (parent i = pos1)) as [Heq|Hnp].
    { apply lookup_lt_Some in Hx. destruct (parent_children i Hi); lia. }
    rewrite list_lookup_insert_ne in Hy by (intros ?; by apply Hnp).
    by apply (Hedges i x y).
  - intros _ c xc y Hc Hcp Hxc _. apply lookup_lt_Some in Hxc.
    rewrite length_insert in Hxc. destruct (parent_children c Hc); lia.
Qed.

Lemma siftup_length (heap : list A) pos : length (_siftup lt heap pos) = length heap.
Proof. apply Permutation_length, siftup_perm. Qed.

(** [heapify] turns any list into a heap. *)
Lemma heapify_ordered (x : list A) : heap_ordered lt (heapify lt x).
Proof.
  unfold heapify, heap_ordered.
  assert (ordered_from lt (length x / 2) x) as Hstart.
  { apply ordered_from_leaves. pose proof (Nat.div_mod_eq (length x) 2).
    pose proof (Nat.mod_upper_bound (length x) 2). lia. }
  revert Hstart. generalize (length x / 2)%nat. intros m. revert x.
  induction m as [|m IH]; intros x Hord; [done|].
  rewrite seq_S, rev_app_distr. simpl. apply IH. by apply siftup_ordered.
Qed.

(** [heappush] keeps a heap a heap. *)
Lemma heappush_ordered (heap : list A) item :
  heap_ordered lt heap → heap_ordered lt (heappush lt heap item).
Proof.
  intros Hord. unfold heappush, _siftdown.
  replace (length (heap ++ [item]) - 1)%nat with (length heap)
    by (rewrite length_app; simpl; lia).
  rewrite lookup_app_r, Nat.sub_diag by lia. simpl.
  assert (<[length heap := item]> (heap ++ [item]) = heap ++ [item]) as Hid.
  { apply list_insert_id. by rewrite lookup_app_r, Nat.sub_diag by lia. }
  apply siftdown_loop_ordered;
    [done | rewrite length_app; simpl; lia | apply under_0 | |].
  - rewrite Hid. intros i x y Hi Hp Hne Hx Hy.
    pose proof (lookup_lt_Some _ _ _ Hx) as Hlen. rewrite length_app in Hlen. simpl in Hlen.
    pose proof (parent_lt i Hi).
    rewrite lookup_app_l in Hx by lia. rewrite lookup_app_l in Hy by lia.
    by apply (Hord i x y).
  - intros _ c xc y Hc Hcp Hxc _. apply lookup_lt_Some in Hxc.
    rewrite length_app in Hxc. simpl in Hxc. destruct (parent_children c Hc); lia.
Qed.

(** [heappushpop] keeps a heap a heap. *)
Lemma heappushpop_ordered (heap : list A) item :
  heap_ordered lt heap → heap_ordered lt (heappushpop lt heap item).2.
Proof.
  intros Hord. unfold heappushpop. destruct heap as [|top rest]; [done|].
  destruct (lt top item); [|done]. simpl. apply siftup_ordered.
  intros i x y Hi Hp Hx Hy. pose proof (parent_lt i Hi).
  destruct i as [|i]; [lia|]. destruct (parent (S i)) as [|j] eqn:Hj; [lia|].
  apply (Hord (S i) x y); [lia | lia | done | by rewrite Hj].
Qed.

(** The first entry of a heap is a least entry. *)
Lemma heap_root_least (heap : list A) root x :
  heap_ordered lt heap → heap !! 0%nat = Some root → x ∈ heap → lt x root = false.
Proof.
  intros Hord Hroot [i Hx]%list_elem_of_lookup. revert x Hx.
  induction (lt_wf i) as [i _ IH]; intros x Hx.
  destruct (decide (i = 0)%nat) as [->|Hi].
  { replace x with root by congruence. apply heap_lt_irrefl. }
  pose proof (parent_lt i ltac:(lia)) as Hp.
  destruct (lookup_lt_is_Some_2 heap (parent i)) as [y Hy];
    [apply lookup_lt_Some in Hx; lia|].
  apply (le_trans root y x); [by apply (IH (parent i))|].
  apply (Hord i x y); [lia | lia | done | done].
Qed.

(** Heap order only looks at the entries of the list. *)
Lemma ordered_from_ext (lt' : A → A → bool) lo (heap : list A) :
  (∀ x y, x ∈ heap → y ∈ heap → lt' x y = lt x y) →
  ordered_from lt lo heap → ordered_from lt' lo heap.
Proof.
  intros Hext Hord i x y Hi Hp Hx Hy.
  rewrite Hext by (by eapply list_elem_of_lookup_2). by apply (Hord i).
Qed.
End heap_order.

(** ** The heap of the sketch is a heap *)

Lemma addr_lt_asym store p q : addr_lt store p q = true → addr_lt store q p = false.
Proof. apply entry_lt_asym. Qed.

Lemma addr_le_trans store p q r :
  addr_lt store q p = false → addr_lt store r q = false → addr_lt store r p = false.
Proof. apply entry_le_trans. Qed.

(** Appending to the store does not change the order of allocated objects. *)
Lemma addr_lt_app store more p q :
  (p < length store)%nat → (q < length store)%nat →
  addr_lt (store ++ more) p q = addr_lt store p q.
Proof. intros Hp Hq. unfold addr_lt, deref. by rewrite !lookup_app_l by done. Qed.

Lemma ordered_from_app store more lo (heap : list nat) :
  Forall (λ p, (p < length store)%nat) heap →
  ordered_from (addr_lt store) lo heap → ordered_from (addr_lt (store ++ more)) lo heap.
Proof.
  intros Halloc. rewrite Forall_forall in Halloc. apply ordered_from_ext.
  intros p q Hp Hq. apply addr_lt_app; by apply Halloc.
Qed.

Lemma heap_step_ordered self key estimate self' :
  wf self → heap_ordered (addr_lt (store self)) (heap self) →
  heap_step self key estimate self' →
  heap_ordered (addr_lt (store self')) (heap self').
Proof.
  intros Hwf Hord Hstep. pose proof (wf_heap_alloc _ Hwf) as Halloc.
  destruct Hstep as [_ -> |p _ _ Hst Hheap _|_ _ _ Hst Hheap _
                    |_ _ _ _ Hst Hheap _|root rest _ _ _ Hroot _ _ _ Hst Hheap _].
  - done.
  - rewrite Hheap. apply heapify_ordered; [apply addr_lt_asym | apply addr_le_trans].
  - rewrite Hheap, Hst.
    assert (Forall (λ p, (p < length (store self ++ [(estimate, key)]))%nat)
              (heappush (addr_lt (store self ++ [(estimate, key)])) (heap self)
                 (length (store self)))) as Halloc'.
    { rewrite heappush_perm. constructor; [rewrite length_app; simpl; lia|].
      eapply Forall_impl; [exact Halloc|]. intros p Hp. rewrite length_app. simpl in *. lia. }
    apply ordered_from_app; [done|].
    apply heappush_ordered; [apply addr_lt_asym | apply addr_le_trans|].
    by apply ordered_from_app.
  - rewrite Hheap, Hst. by apply ordered_from_app.
  - rewrite Hheap, Hst. apply siftup_ordered; [apply addr_lt_asym | apply addr_le_trans|].
    rewrite Hroot in Hord, Halloc.
    apply (ordered_from_app _ [(estimate, key)]) in Hord; [|done].
    intros i x y Hi Hp Hx Hy. pose proof (parent_lt i Hi).
    destruct i as [|i]; [lia|]. destruct (parent (S i)) as [|j] eqn:Hj; [lia|].
    apply (Hord (S i) x y); [lia | lia | done | by rewrite Hj].
Qed.

Section heap_is_ordered.
Variable hash : string → Z.

Lemma update_all_ordered calls : ∀ self self',
  wf self → heap_ordered (addr_lt (store self)) (heap self) →
  update_all hash self calls = Ok self' →
  wf self' ∧ heap_ordered (addr_lt (store self')) (heap self').
Proof.
  induction calls as [|[key increment] calls IH]; intros self self' Hwf Hord; simpl.
  - by intros [= <-].
  - destruct (update_step hash self key increment Hwf)
      as (counted & estimate & self1 & _ & _ & -> & Hwfc & Hwf1 & _ & _ & _ & _ & _ & Hstep).
    simpl. apply IH; [done|].
    by eapply heap_step_ordered; [exact Hwfc | | exact Hstep].
Qed.

Lemma reachable_ordered ceil_exp1_over ceil_log_inv draws delta epsilon k0 self0 calls self :
  __init__ ceil_exp1_over ceil_log_inv draws delta epsilon k0 = Ok self0 →
  1 ≤ w self0 →
  update_all hash self0 calls = Ok self →
  wf self ∧ heap_ordered (addr_lt (store self)) (heap self).
Proof.
  intros Hinit Hw Hrun. pose proof (init_wf _ _ _ _ _ _ _ Hinit Hw) as Hwf.
  eapply update_all_ordered; [exact Hwf | | exact Hrun].
  apply init_Ok in Hinit as (-> & _). simpl.
  intros i x y _ _ Hx. done.
Qed.
End heap_is_ordered.

(** X11. In every state reached from a valid construction the heap is in
    heap order, so its first entry is a least pair of the heap: no entry
    of the heap has a smaller estimate.  An estimate that fails the test
    of [update_heap] is therefore smaller than every estimate in the
    heap. *)
Theorem heap_root_is_least hash ceil_exp1_over ceil_log_inv draws delta epsilon k0 self0 calls self :
  __init__ ceil_exp1_over ceil_log_inv draws delta epsilon k0 = Ok self0 →
  1 ≤ w self0 →
  update_all hash self0 calls = Ok self →
  heap_ordered (addr_lt (store self)) (heap self)
  ∧ (∀ root rest p, heap self = root :: rest → p ∈ heap self →
       entry_lt (deref (store self) p) (deref (store self) root) = false
       ∧ (deref (store self) root).1 ≤ (deref (store self) p).1)
  ∧ (∀ estimate p, admits self estimate = false → p ∈ heap self →
       estimate < (deref (store self) p).1).
Proof.
  intros Hinit Hw Hrun.
  destruct (reachable_ordered hash _ _ _ _ _ _ _ _ _ Hinit Hw Hrun) as [Hwf Hord].
  assert (∀ root rest p, heap self = root :: rest → p ∈ heap self →
       entry_lt (deref (store self) p) (deref (store self) root) = false
       ∧ (deref (store self) root).1 ≤ (deref (store self) p).1) as Hleast.
  { intros root rest p Hheap Hp.
    assert (addr_lt (store self) p root = false) as Hlt.
    { eapply (heap_root_least (addr_lt (store self)));
        [apply addr_lt_asym | apply addr_le_trans | exact Hord | by rewrite Hheap | done]. }
    split; [done|]. unfold addr_lt, entry_lt in Hlt.
    destruct (decide _) as [->|Hne]; [lia|]. apply bool_decide_eq_false in Hlt. lia. }
  split_and!; [done | done |].
  intros estimate p Hno Hp. unfold admits in Hno.
  destruct (heap self) as [|root rest] eqn:Hheap; [done|].
  apply bool_decide_eq_false in Hno.
  destruct (Hleast root rest p eq_refl Hp) as [_ Hle]. lia.
Qed.

Lemma heap_root_is_least_witness :
  ∃ self,
    update_all sample_hash (fresh 6 1 3 [__generate_hash_function sample_draws 0])
      [("b", 2); ("a", 1); ("c", 4); ("a", 5)]%string = Ok self
    ∧ heap_ordered (addr_lt (store self)) (heap self).
Proof.
  let r := eval vm_compute in
    (update_all sample_hash (fresh 6 1 3 [__generate_hash_function sample_draws 0])
       [("b", 2); ("a", 1); ("c", 4); ("a", 5)]%string) in
  match r with Ok ?s => pose (self := s) end.
  exists self.
  destruct (heap_root_is_least sample_hash sample_width sample_depth sample_draws
              (1 # 2) (1 # 2) 3
              (fresh 6 1 3 [__generate_hash_function sample_draws 0])
              [("b", 2); ("a", 1); ("c", 4); ("a", 5)]%string self)
    as (Hord & _);
    [vm_compute; reflexivity | simpl; lia | vm_compute; reflexivity |].
  split; [vm_compute; reflexivity | exact Hord].
Defined.

(** ** When the sketch is exact *)

Lemma true_count_observe keys key :
  true_count ((λ key, (key, 1)) <$> keys) key = occurrences keys key.
Proof. induction keys as [|u keys IH]; simpl; [done|]. f_equal. apply IH. Qed.

Lemma total_increment_observe (keys : list string) :
  total_increment ((λ key, (key, 1)) <$> keys) = Z.of_nat (length keys).
Proof.
  induction keys as [|u keys IH]; [done|].
  rewrite fmap_cons. cbn [total_increment length]. rewrite IH. lia.
Qed.

Lemma observe_positive (keys : list string) :
  Forall (λ call : string * Z, 0 < call.2) ((λ key, (key, 1)) <$> keys).
Proof. apply Forall_fmap, Forall_true. intros key. simpl. lia. Qed.

Lemma NoDup_fmap_eq {A B} (f : A → B) (l : list A) x y :
  NoDup (f <$> l) → x ∈ l → y ∈ l → f x = f y → x = y.
Proof.
  induction l as [|z l IH]; simpl; [by intros _ ?%elem_of_nil|].
  intros [Hz Hl]%NoDup_cons [->|Hx]%elem_of_cons [->|Hy]%elem_of_cons Heq; [done | | |by apply IH].
  - exfalso. apply Hz. rewrite Heq. apply list_elem_of_fmap. by exists y.
  - exfalso. apply Hz. rewrite <- Heq. apply list_elem_of_fmap. by exists x.
Qed.

Lemma StronglySorted_fmap {A B} (R : A → A → Prop) (R' : B → B → Prop) (f : A → B) l :
  (∀ x y, R x y → R' (f x) (f y)) →
  StronglySorted R l → StronglySorted R' (f <$> l).
Proof.
  intros Hf. induction 1 as [|x l _ IH Hall]; simpl; constructor; [done|].
  apply Forall_fmap. eapply Forall_impl; [exact Hall|]. intros y. apply Hf.
Qed.

Lemma entry_le_estimate (x y : entry) : entry_le x y → x.1 ≤ y.1.
Proof.
  unfold entry_le, entry_lt. destruct (decide (y.1 = x.1)); [lia|].
  intros ?%bool_decide_eq_false. lia.
Qed.

Section exact_sketch.
Variable hash : string → Z.

Lemma update_all_app calls calls' self :
  update_all hash self (calls ++ calls')
  = self' ← update_all hash self calls; update_all hash self' calls'.
Proof.
  revert self. induction calls as [|[key increment] calls IH]; intros self; simpl; [done|].
  destruct (update hash self key increment) as [self1|e]; simpl; [apply IH | done].
Qed.

(** The estimate after a run from an empty grid, for a key that one row
    keeps apart from the other keys. *)
Lemma get_separated self0 calls self' key r f :
  wf self0 → (∀ i c, cell (count self0) i c = 0) →
  Forall (λ call : string * Z, 0 < call.2) calls →
  total_increment calls ≤ INT32_MAX →
  hash_functions self0 !! r = Some f →
  (∀ call, call ∈ calls → call.1 ≠ key →
     column_of hash (w self0) f call.1 ≠ column_of hash (w self0) f key) →
  update_all hash self0 calls = Ok self' →
  get hash self' key = Ok (true_count calls key).
Proof.
  intros Hwf Hzero Hpos Htotal Hf Hsep Hrun'.
  destruct (update_all_wf hash calls self0 Hwf)
    as (self1 & Hrun & Hwf' & Hhfs & Hw' & _ & _ & Hcell).
  rewrite Hrun' in Hrun. injection Hrun as <-.
  destruct (get_succeeds hash self' key Hwf') as (v & Hv & _ & Hupper & Hlo).
  rewrite Hv. f_equal.
  assert (∀ i g, hash_functions self0 !! i = Some g →
            cell (count self') i (column_of hash (w self0) g key)
            = exact_cell hash (w self0) g calls (column_of hash (w self0) g key)) as Hexact.
  { intros i g Hg. rewrite (Hcell i g _ Hg), Hzero.
    pose proof (exact_cell_bounds hash (w self0) g calls (column_of hash (w self0) g key) Hpos).
    apply int32_id. unfold is_int32, INT32_MIN, INT32_MAX in *. lia. }
  pose proof (true_count_le_total calls key Hpos) as Hle.
  apply Z.le_antisymm.
  2: { apply Hlo; [unfold INT32_MAX, maxsize in *; lia|].
       intros i g Hg. rewrite Hhfs in Hg. rewrite Hw', (Hexact i g Hg).
       by apply true_count_le_exact. }
  rewrite Hhfs in Hupper. specialize (Hupper r f Hf).
  rewrite Hw', (Hexact r f Hf) in Hupper.
  by rewrite exact_cell_separated in Hupper.
Qed.

(** The state after the lines [keys], when the whole file [users] has at
    most k different users, one row gives them different columns and no
    counter can overflow: the dictionary holds every user seen with the
    exact count, in an object of its own; the pairs of the heap are the
    ones pushed at the first sight of a user, with the estimate 1. *)
Lemma observe_all_exact self0 users r f :
  wf self0 → (∀ i c, cell (count self0) i c = 0) →
  heap self0 = [] → top_k self0 = ∅ →
  Z.of_nat (length (remove_dups users)) ≤ k self0 →
  Z.of_nat (length users) ≤ INT32_MAX →
  hash_functions self0 !! r = Some f →
  NoDup (column_of hash (w self0) f <$> remove_dups users) →
  ∀ keys rest, users = keys ++ rest →
  ∃ self,
    observe_all hash self0 keys = Ok self
    ∧ wf self ∧ cand_ok self ∧ k self = k self0
    ∧ (∀ key, is_Some (top_k self !! key) ↔ key ∈ keys)
    ∧ (∀ key p, top_k self !! key = Some p →
         store self !! p = Some (occurrences keys key, key) ∧ p ∉ heap self)
    ∧ (∀ q, q ∈ heap self → (deref (store self) q).1 = 1).
Proof.
  intros Hwf0 Hzero Hheap0 Htop0 Hdistinct Hlen Hf Hcols.
  induction keys as [|u keys IH] using rev_ind; intros rest Husers.
  { exists self0. unfold observe_all. simpl. split_and!; try done.
    - split; [|rewrite Hheap0; simpl; lia]. intros key p. by rewrite Htop0, lookup_empty.
    - intros key. rewrite Htop0, lookup_empty. split; [by intros [? ?] | by intros ?%elem_of_nil].
    - intros key p. by rewrite Htop0, lookup_empty.
    - intros q. by rewrite Hheap0; intros ?%elem_of_nil. }
  destruct (IH ([u] ++ rest)) as (self & Hrun & Hwf & Hcand & Hk & Hdom & Hpairs & Hones);
    [by rewrite Husers, <- app_assoc|].
  destruct (update_step hash self u 1 Hwf)
    as (counted & estimate & self' & _ & Hget & Hupd & Hwfc & Hwf' & Hcount & Hhfs & Hw
        & _ & Hk' & Hstep).
  assert (observe_all hash self0 (keys ++ [u]) = Ok self') as Hrun'.
  { unfold observe_all in *. rewrite fmap_app, update_all_app, Hrun. simpl. by rewrite Hupd. }
  assert (cand_ok (with_count self counted)) as Hcandc by (destruct Hcand; by split).
  pose proof (heap_step_cand_ok _ _ _ _ Hwfc Hcandc Hk' Hstep) as Hcand'.
  assert (estimate = occurrences keys u + 1) as Hest.
  { rewrite <- (get_after_update hash self self' counted u Hcount Hhfs Hw) in Hget.
    unfold observe_all in Hrun'.
    assert (get hash self' u = Ok (true_count ((λ key, (key, 1)) <$> keys ++ [u]) u)) as Hexact.
    { apply (get_separated self0 _ self' u r f);
        [done | done | apply observe_positive | | done | | exact Hrun'].
      - rewrite total_increment_observe. rewrite Husers in Hlen.
        rewrite !length_app in *. lia.
      - intros [key one] (key' & [= -> ->] & Hin)%list_elem_of_fmap Hne Heq. simpl in *.
        apply Hne. eapply (NoDup_fmap_eq _ _ _ _ Hcols); [| | exact Heq].
        + apply elem_of_remove_dups. rewrite Husers. apply elem_of_app. by left.
        + apply elem_of_remove_dups. rewrite Husers. apply elem_of_app. left.
          apply elem_of_app. right. by left. }
    rewrite Hexact in Hget. injection Hget as <-.
    rewrite true_count_observe, occurrences_app. simpl.
    rewrite decide_True by done. lia. }
  pose proof (occurrences_nonneg keys u) as Hnonneg.
  assert (admits (with_count self counted) estimate = true) as Hadmits.
  { unfold admits. simpl. destruct (heap self) as [|root heap'] eqn:Hheap; [done|].
    apply bool_decide_eq_true.
    assert ((deref (store self) root).1 = 1) as ->; [|lia].
    apply Hones. rewrite ?Hheap. by left. }
  assert (∀ key, key ≠ u → occurrences (keys ++ [u]) key = occurrences keys key) as Hother.
  { intros key Hne. rewrite occurrences_app. simpl. rewrite decide_False by done. lia. }
  pose proof (wf_heap_alloc _ Hwf) as Halloc. rewrite Forall_forall in Halloc.
  assert (top_k self !! u = None → Z.of_nat (size (top_k self)) < k self) as Hroom'.
  { intros Hkey.
    assert (size (dom (top_k self) ∪ {[u]}) ≤ length (remove_dups users))%nat as Hsize.
    { rewrite <- (size_list_to_set (C := gset string)) by apply NoDup_remove_dups.
      apply subseteq_size.
      intros key [Hin%elem_of_dom%Hdom| ->%elem_of_singleton]%elem_of_union;
        apply elem_of_list_to_set, elem_of_remove_dups; rewrite Husers;
        rewrite !elem_of_app; [by do 2 left | left; right; by left]. }
    rewrite size_union, size_singleton, size_dom in Hsize
      by (apply disjoint_singleton_r; rewrite elem_of_dom, Hkey; by intros [? ?]).
    lia. }
  exists self'. split_and!; [done | done | done | by rewrite Hk', Hk | | |].
  all: destruct Hstep as [Hno _|p _ Hkey Hst Hheap Htop|_ Hkey Hroom Hst Hheap Htop
                    |_ Hkey Hfull _ _ _ _|root heap' _ Hkey Hfull _ _ _ _ _ _ _];
    simpl in *; try congruence; try (by exfalso; apply Hfull, Hroom').
  - (* keys, refreshed *)
    intros key. rewrite Htop, Hdom, elem_of_app, list_elem_of_singleton.
    split; [by left | intros [?| ->]; [done|]]. apply Hdom. by rewrite Hkey.
  - (* keys, pushed *)
    intros key. rewrite Htop, elem_of_app, list_elem_of_singleton, <- Hdom.
    destruct (decide (key = u)) as [->|Hne].
    + rewrite lookup_insert_eq. split; [by right | by eexists].
    + rewrite lookup_insert_ne by done. split; [by left | by intros [?|?]].
  - (* pairs, refreshed *)
    intros key p' Hp'. rewrite Htop in Hp'. rewrite Hst, Hheap, heapify_perm.
    destruct (Hpairs u p Hkey) as [Hp Hpheap].
    destruct (Hpairs key p' Hp') as [Hp'store Hp'heap]. split; [|done].
    destruct (decide (key = u)) as [->|Hne].
    + assert (p' = p) as -> by congruence.
      rewrite list_lookup_insert_eq by (by eapply lookup_lt_Some).
      unfold key_at, deref. unfold entry in *. rewrite Hp. simpl.
      rewrite occurrences_app. simpl. rewrite decide_True by done. do 2 f_equal. lia.
    + rewrite list_lookup_insert_ne, Hother; [done | done |].
      intros ->. unfold entry in *. rewrite Hp in Hp'store. congruence.
  - (* pairs, pushed *)
    intros key p' Hp'. rewrite Htop in Hp'. rewrite Hst, Hheap, heappush_perm.
    assert (occurrences keys u = 0) as Hnew.
    { destruct (decide (0 < occurrences keys u)) as [Hpos|]; [|lia].
      apply occurrences_pos, Hdom in Hpos. rewrite Hkey in Hpos. by destruct Hpos. }
    destruct (decide (key = u)) as [->|Hne].
    + rewrite lookup_insert_eq in Hp'. injection Hp' as <-. split.
      * rewrite lookup_app_r by (rewrite length_app; simpl; lia).
        rewrite length_app. simpl. replace (S _ - _)%nat with 0%nat by lia. simpl.
        rewrite occurrences_app. simpl. rewrite decide_True by done. do 2 f_equal. lia.
      * intros [?|Hin%Halloc]%elem_of_cons; lia.
    + rewrite lookup_insert_ne in Hp' by done.
      destruct (Hpairs key p' Hp') as [Hp'store Hp'heap].
      pose proof (lookup_lt_Some _ _ _ Hp'store).
      split.
      * rewrite <- app_assoc, lookup_app_l, Hother by done. done.
      * intros [?|?]%elem_of_cons; [unfold entry in *; lia | done].
  - (* heap, refreshed *)
    intros q Hq. rewrite Hheap, heapify_perm in Hq. rewrite Hst.
    destruct (Hpairs u p Hkey) as [_ Hpheap].
    unfold deref. rewrite list_lookup_insert_ne by (intros ->; done). by apply Hones.
  - (* heap, pushed *)
    intros q Hq. rewrite Hheap, heappush_perm in Hq. rewrite Hst.
    assert (occurrences keys u = 0) as Hnew.
    { destruct (decide (0 < occurrences keys u)) as [Hpos|]; [|lia].
      apply occurrences_pos, Hdom in Hpos. rewrite Hkey in Hpos. by destruct Hpos. }
    apply elem_of_cons in Hq as [->|Hq].
    + unfold deref. rewrite <- app_assoc, lookup_app_r by done.
      rewrite Nat.sub_diag. simpl. lia.
    + pose proof (Halloc q Hq). unfold deref.
      rewrite <- app_assoc, lookup_app_l by done. by apply Hones.
Qed.
End exact_sketch.

(** X12. When the file has at most k different users, one row of the
    sketch gives them pairwise different columns and the file has at most
    2^31 - 1 lines, the sketch is exact: after [CM_top_users] the
    dictionary holds every user with its exact number of lines, the counts
    it lists are the counts [exact_top_users] lists, position by position,
    and when [top_n] covers all users the two listings have the same
    lines up to their order. *)
Theorem CM_top_users_exact hash ceil_exp1_over ceil_log_inv draws delta epsilon k0
    self f top_n r fr :
  let users := rstrip_newline <$> f in
  __init__ ceil_exp1_over ceil_log_inv draws delta epsilon k0 = Ok self →
  1 ≤ w self →
  Z.of_nat (length (remove_dups users)) ≤ k self →
  Z.of_nat (length f) ≤ INT32_MAX →
  hash_functions self !! r = Some fr →
  NoDup (column_of hash (w self) fr <$> remove_dups users) →
  ∃ self',
    CM_top_users hash f self top_n = Ok (format_value <$> CM_top self' top_n, self')
    ∧ (∀ user, user ∈ users →
         ∃ p, top_k self' !! user = Some p
              ∧ store self' !! p = Some (occurrences users user, user))
    ∧ (CM_top self' top_n).*1 = (exact_top f top_n).*2
    ∧ ((length (remove_dups users) ≤ Z.to_nat top_n)%nat →
         format_value <$> CM_top self' top_n ≡ₚ exact_top_users f top_n).
Proof.
  intros users Hinit Hw Hdistinct Hlen Hfr Hcols.
  pose proof (init_wf _ _ _ _ _ _ _ Hinit Hw) as Hwf.
  destruct (observe_all_exact hash self users r fr Hwf) with (keys := users) (rest := @nil string)
    as (self' & Hrun & Hwf' & Hcand & _ & Hdom & Hpairs & _);
    [ apply init_Ok in Hinit as (-> & _); apply cell_fresh
    | by apply init_Ok in Hinit as (-> & _)
    | by apply init_Ok in Hinit as (-> & _)
    | done
    | by unfold users; rewrite length_fmap
    | done | done
    | by rewrite app_nil_r |].
  exists self'.
  set (pair_of := λ user : string, (occurrences users user, user)).
  set (values := deref (store self') <$> (map_to_list (top_k self')).*2).
  assert (values = pair_of <$> (map_to_list (top_k self')).*1) as Hvalues.
  { unfold values. rewrite <- !list_fmap_compose. apply list_fmap_ext.
    intros i [key p] Hin%list_elem_of_lookup_2%elem_of_map_to_list. simpl.
    destruct (Hpairs key p Hin) as [Hp _]. unfold deref. unfold entry in *. by rewrite Hp. }
  destruct (exact_counts_counted f) as [Hnodup Hspec]. fold users in Hspec.
  assert ((λ item : string * Z, (item.2, item.1)) <$> exact_counts f
          = pair_of <$> (exact_counts f).*1) as Hitems.
  { rewrite <- list_fmap_compose. apply list_fmap_ext.
    intros i [user c] Hin%list_elem_of_lookup_2. simpl.
    apply Hspec in Hin as [_ ->]. done. }
  assert ((map_to_list (top_k self')).*1 ≡ₚ (exact_counts f).*1) as Hkeys.
  { apply NoDup_Permutation; [apply NoDup_fst_map_to_list | done |].
    intros user. rewrite exact_counts_keys, elem_of_remove_dups. fold users.
    rewrite <- Hdom. rewrite list_elem_of_fmap. split.
    - intros ([key p] & -> & Hin%elem_of_map_to_list). by eexists.
    - intros [p Hp]. exists (user, p). split; [done|]. by apply elem_of_map_to_list. }
  assert (values ≡ₚ (λ item : string * Z, (item.2, item.1)) <$> exact_counts f) as Hperm.
  { by rewrite Hvalues, Hitems, Hkeys. }
  assert (CM_top_users hash f self top_n = Ok (format_value <$> CM_top self' top_n, self'))
    as Hlines.
  { unfold CM_top_users. fold users. rewrite Hrun. simpl.
    rewrite listing_loop_take. simpl. by rewrite Z.sub_0_r. }
  split_and!; [done | | |].
  - intros user Hin%Hdom. destruct Hin as [p Hp]. exists p. split; [done|].
    by apply Hpairs.
  - unfold CM_top, exact_top. fold values. rewrite !fmap_take, !fmap_reverse. do 2 f_equal.
    apply (StronglySorted_unique Z.le).
    + apply (StronglySorted_fmap entry_le); [apply entry_le_estimate|].
      apply (StronglySorted_merge_sort entry_le).
    + apply (StronglySorted_fmap (λ x y : string * Z, x.2 ≤ y.2)); [done|].
      apply sorted_by_count_sorted.
    + rewrite merge_sort_Permutation, sorted_by_count_perm, Hperm.
      by rewrite <- list_fmap_compose.
  - intros Hall. rewrite exact_top_users_lines. unfold CM_top, exact_top. fold values.
    rewrite !take_ge.
    + rewrite !fmap_reverse, !reverse_Permutation.
      rewrite merge_sort_Permutation, sorted_by_count_perm, Hperm.
      by rewrite <- list_fmap_compose.
    + rewrite length_reverse, sorted_by_count_perm, <- (length_fmap fst), exact_counts_keys.
      done.
    + rewrite length_reverse, merge_sort_Permutation, Hperm, length_fmap.
      rewrite <- (length_fmap fst), exact_counts_keys. done.
Qed.

Lemma CM_top_users_exact_witness :
  ∃ self',
    CM_top_users sample_hash ["b"; "a"; "b"]%string
      (fresh 6 1 3 [__generate_hash_function sample_draws 0]) 2
    = Ok (format_value <$> CM_top self' 2, self')
    ∧ format_value <$> CM_top self' 2 ≡ₚ exact_top_users ["b"; "a"; "b"]%string 2.
Proof.
  destruct (CM_top_users_exact sample_hash sample_width sample_depth sample_draws
              (1 # 2) (1 # 2) 3 (fresh 6 1 3 [__generate_hash_function sample_draws 0])
              ["b"; "a"; "b"]%string 2 0%nat (__generate_hash_function sample_draws 0))
    as (self' & Hlines & _ & _ & Hperm).
  - vm_compute; reflexivity.
  - simpl; lia.
  - vm_compute. discriminate.
  - vm_compute. discriminate.
  - reflexivity.
  - apply (bool_decide_unpack _). vm_compute. exact I.
  - exists self'. split; [exact Hlines|]. apply Hperm. vm_compute. lia.
Defined.

(** X13. With w >= 1 a hash function of the sketch sends every integer to
    a column c with 0 <= c < w, whatever its two random parameters are. *)
Theorem hash_function_in_range draws i self_w x :
  1 ≤ self_w →
  ∃ c, call_hash self_w (__generate_hash_function draws i) x = Ok c ∧ 0 ≤ c < self_w.
Proof.
  intros Hw. unfold call_hash. rewrite decide_False by lia.
  eexists. split; [done|]. apply Z.mod_pos_bound. lia.
Qed.

Lemma hash_function_in_range_witness :
  ∃ c, call_hash 6 (__generate_hash_function sample_draws 0) 12345 = Ok c ∧ 0 ≤ c < 6.
Proof. apply (hash_function_in_range sample_draws 0 6 12345). lia. Defined.
